(** * NaturalCommitLint: the response-extraction and verdict pipeline

    A shallow embedding of [src/llmlinter.py] and [src/lint_commit.py].

    - A Python [str] is a list of Unicode code points ([N]).
    - [re] patterns are terms of a small regular-expression syntax, run by
      a backtracking matcher with the priorities of Python's [re]
      (leftmost match, greedy and lazy repetition, numbered groups).
    - [json.loads] is a recursive-descent decoder over the remaining input.
    - Functions that can raise return an [outcome]; the LLM gateway is an
      oracle threaded through a small state monad. *)

From Stdlib Require Import List NArith ZArith Bool Arith Lia.
From Stdlib Require String Ascii.
Import ListNotations String.StringSyntax.

Set Implicit Arguments.

(** ** Strings *)

Module Str.

Definition char := N.
Definition str := list char.

(** The code points of an ASCII literal. *)
Definition lit (s : String.string) : str :=
  map Ascii.N_of_ascii (String.list_ascii_of_string s).

(** [str.isspace] on one code point; [\s] of a [str] pattern and
    [str.strip()] use the same table. *)
Definition isspace (c : char) : bool :=
  ((9 <=? c) && (c <=? 13) || (28 <=? c) && (c <=? 32)
   || (c =? 133) || (c =? 160) || (c =? 5760)
   || (8192 <=? c) && (c <=? 8202)
   || (c =? 8232) || (c =? 8233) || (c =? 8239) || (c =? 8287)
   || (c =? 12288))%N.

Fixpoint lstrip (s : str) : str :=
  match s with
  | c :: s' => if isspace c then lstrip s' else s
  | [] => []
  end.

Definition rstrip (s : str) : str := rev (lstrip (rev s)).

(** [s.strip()] *)
Definition strip (s : str) : str := rstrip (lstrip s).

Definition eqb (a b : str) : bool :=
  if list_eq_dec N.eq_dec a b then true else false.

(** [s.startswith(p)], returning what follows the prefix. *)
Fixpoint strip_prefix (p s : str) : option str :=
  match p with
  | [] => Some s
  | a :: p' =>
      match s with
      | c :: s' => if (a =? c)%N then strip_prefix p' s' else None
      | [] => None
      end
  end.

Definition startswith (p s : str) : bool :=
  match strip_prefix p s with Some _ => true | None => false end.

(** [p in s] *)
Fixpoint contains (p s : str) : bool :=
  startswith p s ||
  match s with
  | _ :: s' => contains p s'
  | [] => false
  end.

(** [s.find(p)] as a split at the first occurrence. *)
Fixpoint find_sub (p s : str) : option (str * str) :=
  match strip_prefix p s with
  | Some post => Some ([], post)
  | None =>
      match s with
      | c :: s' =>
          match find_sub p s' with
          | Some (b, post) => Some (c :: b, post)
          | None => None
          end
      | [] => None
      end
  end.

End Str.
Import Str.

Delimit Scope string_scope with string.
Declare Scope str_scope.
Delimit Scope str_scope with str.
Bind Scope str_scope with str.
Notation "$ s" := (lit s%string) (at level 1, format "$ s") : str_scope.
Open Scope str_scope.
Open Scope list_scope.

(** ** Regular expressions *)

Module Re.

Inductive regex :=
| Eps
| Lit (l : str)                     (* a run of literal characters *)
| Class (p : char -> bool)          (* one character of a class *)
| Cat (r1 r2 : regex)
| Alt (r1 r2 : regex)
| Star (greedy : bool) (r : regex)  (* r* and r*? *)
| Group (i : nat) (r : regex).      (* capturing group number i *)

Definition Plus (greedy : bool) (r : regex) : regex := Cat r (Star greedy r).
Definition Opt (r : regex) : regex := Alt r Eps.

(** Character classes of the source's patterns. *)
Definition any : char -> bool := fun _ => true.      (* . under DOTALL *)
Definition space : char -> bool := isspace.          (* \s *)
Definition noneof (c : char) : char -> bool := fun x => negb (x =? c)%N.

(** Captured groups, most recent first. *)
Definition groups := list (nat * str).

Fixpoint group (g : groups) (i : nat) : option str :=
  match g with
  | (j, s) :: g' => if Nat.eqb i j then Some s else group g' i
  | [] => None
  end.

Definition orelse {A} (x y : option A) : option A :=
  match x with Some _ => x | None => y end.

Section Matcher.
Variable A : Type.

(** A matcher consumes a prefix of the input and hands the rest and the
    groups to its continuation; [None] makes the caller backtrack. *)
Definition cont := str -> groups -> option A.
Definition matcher := str -> groups -> cont -> option A.

(** Repetition: at most [n] more rounds, and a round has to consume. *)
Fixpoint iter (greedy : bool) (body : matcher) (n : nat) : matcher :=
  fun s g k =>
    match n with
    | O => k s g
    | S n' =>
        let more :=
          body s g (fun s' g' =>
            if Nat.ltb (length s') (length s)
            then iter greedy body n' s' g' k else None) in
        if greedy then orelse more (k s g) else orelse (k s g) more
    end.

Fixpoint run (r : regex) : matcher :=
  fun s g k =>
    match r with
    | Eps => k s g
    | Lit l =>
        match strip_prefix l s with
        | Some s' => k s' g
        | None => None
        end
    | Class p =>
        match s with
        | c :: s' => if p c then k s' g else None
        | [] => None
        end
    | Cat r1 r2 => run r1 s g (fun s' g' => run r2 s' g' k)
    | Alt r1 r2 => orelse (run r1 s g k) (run r2 s g k)
    | Star greedy r' => iter greedy (run r') (length s) s g k
    | Group i r' =>
        run r' s g (fun s' g' =>
          k s' ((i, firstn (length s - length s') s) :: g'))
    end.
End Matcher.

(** A match object: where the match starts and ends, and its groups. *)
Record match_obj := { m_start : nat; m_end : nat; m_groups : groups }.

(** One attempt at the head of [s]; [must_advance] refuses an empty match. *)
Definition match_at (r : regex) (must_advance : bool) (s : str)
  : option (groups * str) :=
  run r s [] (fun s' g =>
    if must_advance && Nat.eqb (length s') (length s)
    then None else Some (g, s')).

(** [re.match]: the pattern at the start of the string only. *)
Definition re_match (r : regex) (s : str) : option match_obj :=
  match match_at r false s with
  | Some (g, rest) =>
      Some {| m_start := 0; m_end := length s - length rest; m_groups := g |}
  | None => None
  end.

(** The scan of [re.search]: the leftmost position where the pattern
    matches, [pos] characters having been passed already. *)
Fixpoint search_from (r : regex) (must_advance : bool) (pos : nat) (s : str)
  : option match_obj :=
  match match_at r must_advance s with
  | Some (g, rest) =>
      Some {| m_start := pos; m_end := pos + (length s - length rest);
              m_groups := g |}
  | None =>
      match s with
      | _ :: s' => search_from r false (S pos) s'
      | [] => None
      end
  end.

Definition re_search (r : regex) (s : str) : option match_obj :=
  search_from r false 0 s.

(** [m.group(i)] for a group that took part, and the [''] that
    [re.findall] reports for one that did not. *)
Definition group_or_empty (m : match_obj) (i : nat) : str :=
  match group (m_groups m) i with Some s => s | None => [] end.

(** [re.findall] for a pattern with one group: search, record group 1,
    restart where the match ended. *)
Fixpoint findall_loop (fuel : nat) (r : regex) (must_advance : bool)
  (s : str) : list str :=
  match fuel with
  | O => []
  | S fuel' =>
      match search_from r must_advance 0 s with
      | None => []
      | Some m =>
          group_or_empty m 1
            :: findall_loop fuel' r (Nat.eqb (m_end m) (m_start m))
                 (skipn (m_end m) s)
      end
  end.

Definition re_findall (r : regex) (s : str) : list str :=
  findall_loop (2 * length s + 2) r false s.

End Re.
Import Re.

(** ** The patterns of the source *)

Definition FENCE : str := $"```".

(** [r"```json\s*({.*?})\s*```"] *)
Definition JSON_OBJECT_PATTERN : regex :=
  Cat (Lit $"```json")
   (Cat (Star true (Class space))
    (Cat (Group 1 (Cat (Lit $"{") (Cat (Star false (Class any)) (Lit $"}"))))
     (Cat (Star true (Class space)) (Lit FENCE)))).

(** [r"```markdown\n(.*?)```"], [r"```text\n(.*?)```"],
    [r"```json\n(.*?)```"]: an opening line, a lazy body, a fence. *)
Definition fenced_pattern (opening : str) : regex :=
  Cat (Lit opening) (Cat (Group 1 (Star false (Class any))) (Lit FENCE)).

Definition NL : str := [10%N].
Definition MARKDOWN_OPEN : str := $"```markdown" ++ NL.
Definition TEXT_OPEN : str := $"```text" ++ NL.
Definition JSON_OPEN : str := $"```json" ++ NL.

Definition MARKDOWN_PATTERN : regex := fenced_pattern MARKDOWN_OPEN.
Definition TEXT_PATTERN : regex := fenced_pattern TEXT_OPEN.
Definition JSON_BLOCK_PATTERN : regex := fenced_pattern JSON_OPEN.

(** [r"(?:https://github\.com/|git@github\.com:)([^/]+)/([^.]+)(\.git)?"] *)
Definition GITHUB_URL_PATTERN : regex :=
  Cat (Alt (Lit $"https://github.com/") (Lit $"git@github.com:"))
   (Cat (Group 1 (Plus true (Class (noneof 47%N))))
    (Cat (Lit $"/")
     (Cat (Group 2 (Plus true (Class (noneof 46%N))))
          (Opt (Group 3 (Lit $".git")))))).

(** ** Block extraction without JSON *)

(** [extract_markdown_block] *)
Definition extract_markdown_block (text : str) : str :=
  match re_search MARKDOWN_PATTERN text with
  | Some m => strip (group_or_empty m 1)
  | None => []
  end.

(** [extract_text_block] *)
Definition extract_text_block (text : str) : str :=
  match re_search TEXT_PATTERN text with
  | Some m => strip (group_or_empty m 1)
  | None => []
  end.

(** ** JSON values and [json.loads] *)

Module Json.

(** What [json.loads] builds.  A [dict] keeps one entry per key in
    insertion order; a number with a fraction or an exponent is kept as the
    text that [float] is applied to, as are the constants [NaN],
    [Infinity] and [-Infinity]. *)
#[warnings="-register-all"]
Inductive json :=
| JNull
| JBool (b : bool)
| JInt (n : Z)
| JFloat (lexeme : str)
| JString (s : str)
| JArray (items : list json)
| JObject (members : list (str * json)).

Fixpoint str_eqb (a b : str) : bool :=
  match a, b with
  | [], [] => true
  | x :: a', y :: b' => (x =? y)%N && str_eqb a' b'
  | _, _ => false
  end.

(** [d[k] = v] *)
Fixpoint dict_set (k : str) (v : json) (d : list (str * json))
  : list (str * json) :=
  match d with
  | [] => [(k, v)]
  | (k', v') :: d' =>
      if str_eqb k k' then (k', v) :: d' else (k', v') :: dict_set k v d'
  end.

(** [dict(pairs)]: a later pair overwrites the value of an equal key. *)
Definition dict_of_pairs (pairs : list (str * json)) : list (str * json) :=
  fold_left (fun d kv => dict_set (fst kv) (snd kv) d) pairs [].

(** [d.get(k)] *)
Fixpoint dict_get (k : str) (d : list (str * json)) : option json :=
  match d with
  | [] => None
  | (k', v) :: d' => if str_eqb k k' then Some v else dict_get k d'
  end.

(** The messages of [json.JSONDecodeError]. *)
Inductive error_kind :=
| UnexpectedBOM
| ExpectingValue
| ExtraData
| UnterminatedString
| InvalidControlCharacter
| InvalidEscape
| InvalidUnicodeEscape
| ExpectingPropertyName
| ExpectingColon
| ExpectingComma.

(** An error and how many characters of the document were still to be
    read at the place it is reported for. *)
Definition jerr := (error_kind * nat)%type.

Inductive res (A : Type) :=
| Ok (a : A)
| Err (e : jerr)
| Starved.                        (* the recursion budget ran out *)
Arguments Ok {A} a.
Arguments Err {A} e.
Arguments Starved {A}.

Definition bind {A B} (x : res A) (f : A -> res B) : res B :=
  match x with
  | Ok a => f a
  | Err e => Err e
  | Starved => Starved
  end.

Notation "' p <- x ;; k" := (bind x (fun p => k))
  (at level 61, p pattern, x at next level, right associativity).

Definition QUOTE : char := 34%N.       (* the double quote *)
Definition BACKSLASH : char := 92%N.
Definition COMMA : char := 44%N.
Definition COLON : char := 58%N.
Definition LBRACE : char := 123%N.
Definition RBRACE : char := 125%N.
Definition LBRACKET : char := 91%N.
Definition RBRACKET : char := 93%N.
Definition MINUS : char := 45%N.

(** The decoder's own whitespace: space, tab, line feed, carriage return. *)
Definition ws (c : char) : bool :=
  ((c =? 32) || (c =? 9) || (c =? 10) || (c =? 13))%N.

Fixpoint skip_ws (s : str) : str :=
  match s with
  | c :: s' => if ws c then skip_ws s' else s
  | [] => []
  end.

Definition is_digit (c : char) : bool := ((48 <=? c) && (c <=? 57))%N.

Definition hex_value (c : char) : option N :=
  if is_digit c then Some (c - 48)%N
  else if ((97 <=? c) && (c <=? 102))%N then Some (c - 87)%N
  else if ((65 <=? c) && (c <=? 70))%N then Some (c - 55)%N
  else None.

(** Four hexadecimal digits of a [\uXXXX] escape. *)
Definition hex4 (a b c d : char) : option N :=
  match hex_value a, hex_value b, hex_value c, hex_value d with
  | Some x, Some y, Some z, Some w => Some (((x * 16 + y) * 16 + z) * 16 + w)%N
  | _, _, _, _ => None
  end.

Definition is_high_surrogate (u : N) : bool :=
  ((55296 <=? u) && (u <=? 56319))%N.
Definition is_low_surrogate (u : N) : bool :=
  ((56320 <=? u) && (u <=? 57343))%N.
Definition join_surrogates (hi lo : N) : N :=
  (65536 + (((hi - 55296) * 1024) + (lo - 56320)))%N.

(** The character a one-letter escape stands for. *)
Definition simple_escape (c : char) : option char :=
  if (c =? QUOTE)%N then Some QUOTE
  else if (c =? BACKSLASH)%N then Some BACKSLASH
  else if (c =? 47)%N then Some 47%N
  else if (c =? 98)%N then Some 8%N
  else if (c =? 102)%N then Some 12%N
  else if (c =? 110)%N then Some 10%N
  else if (c =? 114)%N then Some 13%N
  else if (c =? 116)%N then Some 9%N
  else None.

(** A low surrogate escape right at the head of [s], and what follows it. *)
Definition low_surrogate_escape (s : str) : option (N * str) :=
  match s with
  | b :: u :: h1 :: h2 :: h3 :: h4 :: rest =>
      if ((b =? BACKSLASH) && (u =? 117))%N then
        match hex4 h1 h2 h3 h4 with
        | Some lo => if is_low_surrogate lo then Some (lo, rest) else None
        | None => None
        end
      else None
  | _ => None
  end.

(** [scanstring] in strict mode: [s] follows the opening quote, which is
    [start] characters from the end of the document. *)
Fixpoint scanstring (start : nat) (s : str) : res (str * str) :=
  match s with
  | [] => Err (UnterminatedString, start)
  | c :: s' =>
      if (c =? QUOTE)%N then Ok ([], s')
      else if (c =? BACKSLASH)%N then
        match s' with
        | [] => Err (UnterminatedString, start)
        | e :: s'' =>
            if (e =? 117)%N then
              match s'' with
              | h1 :: h2 :: h3 :: h4 :: s3 =>
                  match hex4 h1 h2 h3 h4 with
                  | None => Err (InvalidUnicodeEscape, length s')
                  | Some u =>
                      match
                        (if is_high_surrogate u
                         then low_surrogate_escape s3 else None),
                        s3
                      with
                      | Some (lo, _), _ :: _ :: _ :: _ :: _ :: _ :: s4 =>
                          ' (t, rest) <- scanstring start s4 ;;
                          Ok (join_surrogates u lo :: t, rest)
                      | _, _ =>
                          ' (t, rest) <- scanstring start s3 ;;
                          Ok (u :: t, rest)
                      end
                  end
              | _ => Err (InvalidUnicodeEscape, length s')
              end
            else
              match simple_escape e with
              | Some x =>
                  ' (t, rest) <- scanstring start s'' ;;
                  Ok (x :: t, rest)
              | None => Err (InvalidEscape, length s)
              end
        end
      else if (c <? 32)%N then Err (InvalidControlCharacter, length s)
      else
        ' (t, rest) <- scanstring start s' ;;
        Ok (c :: t, rest)
  end.

(** The longest prefix of digits and what follows. *)
Fixpoint digits (s : str) : str * str :=
  match s with
  | c :: s' =>
      if is_digit c then let (d, r) := digits s' in (c :: d, r) else ([], s)
  | [] => ([], [])
  end.

(** [int] of a run of decimal digits. *)
Definition int_of_digits (d : str) : Z :=
  fold_left (fun acc c => (acc * 10 + Z.of_N (c - 48))%Z) d 0%Z.

(** The integer part of a number: [0], or a digit from 1 to 9 and more
    digits. *)
Definition integer_part (s : str) : option (str * str) :=
  match s with
  | c :: s' =>
      if (c =? 48)%N then Some ([c], s')
      else if is_digit c then let (d, r) := digits s' in Some (c :: d, r)
      else None
  | [] => None
  end.

(** A fraction needs a digit after the point. *)
Definition fraction_part (s : str) : str * str :=
  match s with
  | c :: s' =>
      if (c =? 46)%N then
        match digits s' with
        | ([], _) => ([], s)
        | (d, r) => (c :: d, r)
        end
      else ([], s)
  | [] => ([], s)
  end.

(** An exponent needs a digit after the optional sign. *)
Definition exponent_part (s : str) : str * str :=
  match s with
  | c :: s' =>
      if ((c =? 101) || (c =? 69))%N then
        let (sign, s'') :=
          match s' with
          | x :: t => if ((x =? 45) || (x =? 43))%N then ([x], t) else ([], s')
          | [] => ([], s')
          end in
        match digits s'' with
        | ([], _) => ([], s)
        | (d, r) => (c :: sign ++ d, r)
        end
      else ([], s)
  | [] => ([], s)
  end.

(** The number at the head of [s], if there is one. *)
Definition scan_number (s : str) : option (json * str) :=
  let (sign, s1) :=
    match s with
    | c :: t => if (c =? MINUS)%N then ([c], t) else ([], s)
    | [] => ([], s)
    end in
  match integer_part s1 with
  | None => None
  | Some (int, s2) =>
      let (frac, s3) := fraction_part s2 in
      let (exp, s4) := exponent_part s3 in
      match frac, exp with
      | [], [] =>
          Some (JInt (match sign with
                      | [] => int_of_digits int
                      | _ => - int_of_digits int
                      end)%Z, s4)
      | _, _ => Some (JFloat (sign ++ int ++ frac ++ exp), s4)
      end
  end.

(** The literal names, tried in the scanner's order. *)
Definition scan_constant (s : str) : option (json * str) :=
  match strip_prefix $"null" s with
  | Some r => Some (JNull, r)
  | None =>
  match strip_prefix $"true" s with
  | Some r => Some (JBool true, r)
  | None =>
  match strip_prefix $"false" s with
  | Some r => Some (JBool false, r)
  | None =>
  match strip_prefix $"NaN" s with
  | Some r => Some (JFloat $"NaN", r)
  | None =>
  match strip_prefix $"Infinity" s with
  | Some r => Some (JFloat $"Infinity", r)
  | None =>
  match strip_prefix $"-Infinity" s with
  | Some r => Some (JFloat $"-Infinity", r)
  | None => None
  end end end end end end.

(** [scan_once], [JSONArray] and [JSONObject].  [array_items] starts at a
    value; [object_items] starts after the opening quote of a key. *)
Fixpoint scan_once (fuel : nat) (s : str) {struct fuel} : res (json * str) :=
  match fuel with
  | O => Starved
  | S f =>
      match s with
      | [] => Err (ExpectingValue, 0)
      | c :: s' =>
          if (c =? QUOTE)%N then
            ' (t, rest) <- scanstring (length s) s' ;; Ok (JString t, rest)
          else if (c =? LBRACE)%N then
            match skip_ws s' with
            | d :: r =>
                if (d =? RBRACE)%N then Ok (JObject [], r)
                else if (d =? QUOTE)%N then
                  ' (pairs, rest) <- object_items f r ;;
                  Ok (JObject (dict_of_pairs pairs), rest)
                else Err (ExpectingPropertyName, length (d :: r))
            | [] => Err (ExpectingPropertyName, 0)
            end
          else if (c =? LBRACKET)%N then
            match skip_ws s' with
            | d :: r =>
                if (d =? RBRACKET)%N then Ok (JArray [], r)
                else
                  ' (items, rest) <- array_items f (d :: r) ;;
                  Ok (JArray items, rest)
            | [] => Err (ExpectingValue, 0)
            end
          else
            match scan_constant s with
            | Some vr => Ok vr
            | None =>
                match scan_number s with
                | Some vr => Ok vr
                | None => Err (ExpectingValue, length s)
                end
            end
      end
  end

with array_items (fuel : nat) (s : str) {struct fuel}
  : res (list json * str) :=
  match fuel with
  | O => Starved
  | S f =>
      ' (v, r1) <- scan_once f s ;;
      match skip_ws r1 with
      | d :: r2 =>
          if (d =? RBRACKET)%N then Ok ([v], r2)
          else if (d =? COMMA)%N then
            ' (vs, rest) <- array_items f (skip_ws r2) ;;
            Ok (v :: vs, rest)
          else Err (ExpectingComma, length (d :: r2))
      | [] => Err (ExpectingComma, 0)
      end
  end

with object_items (fuel : nat) (s : str) {struct fuel}
  : res (list (str * json) * str) :=
  match fuel with
  | O => Starved
  | S f =>
      ' (key, r1) <- scanstring (S (length s)) s ;;
      match skip_ws r1 with
      | c :: r2 =>
          if (c =? COLON)%N then
            ' (v, r3) <- scan_once f (skip_ws r2) ;;
            match skip_ws r3 with
            | d :: r4 =>
                if (d =? RBRACE)%N then Ok ([(key, v)], r4)
                else if (d =? COMMA)%N then
                  match skip_ws r4 with
                  | q :: r5 =>
                      if (q =? QUOTE)%N then
                        ' (ps, rest) <- object_items f r5 ;;
                        Ok ((key, v) :: ps, rest)
                      else Err (ExpectingPropertyName, length (q :: r5))
                  | [] => Err (ExpectingPropertyName, 0)
                  end
                else Err (ExpectingComma, length (d :: r4))
            | [] => Err (ExpectingComma, 0)
            end
          else Err (ExpectingColon, length (c :: r2))
      | [] => Err (ExpectingColon, 0)
      end
  end.

(** [json.JSONDecodeError]: the message and the index it points at. *)
Record JSONDecodeError := { e_msg : error_kind; e_pos : nat; e_doc : str }.

Inductive decoded :=
| Decoded (v : json)
| Malformed (e : JSONDecodeError)
| Unfinished.

Definition BOM : char := 65279%N.

(** [json.loads(doc)] for a [str]: no byte-order mark, then leading
    whitespace, one value, trailing whitespace, and nothing else.  Python
    integers are unbounded; the interpreter's limits on digits and on
    nesting depth are not modelled. *)
Definition json_loads (doc : str) : decoded :=
  let report (e : jerr) :=
    Malformed {| e_msg := fst e; e_pos := length doc - snd e; e_doc := doc |} in
  if startswith [BOM] doc then report (UnexpectedBOM, length doc)
  else
    match scan_once (2 * length doc + 1) (skip_ws doc) with
    | Ok (v, rest) =>
        match skip_ws rest with
        | [] => Decoded v
        | extra => report (ExtraData, length extra)
        end
    | Err e => report e
    | Starved => Unfinished
    end.

End Json.
Import Json.

(** ** Exceptions and results *)

Inductive exn :=
| ValueError (msg : str)
| DecodeError (e : JSONDecodeError)   (* json.JSONDecodeError, uncaught *)
| KeyError (key : str)
| TypeError                           (* a str subscript on a non-dict *)
| UnboundLocalError                   (* a local read before assignment *)
| GatewayError.                       (* whatever the LLM client raised *)

Inductive outcome (A : Type) :=
| Return (a : A)
| Raise (e : exn)
| Diverge.                            (* only where a decoder is [Unfinished] *)
Arguments Return {A} a.
Arguments Raise {A} e.
Arguments Diverge {A}.

(** Decimal digits of a natural number, for [%d]. *)
Fixpoint uint_chars (d : Decimal.uint) : str :=
  match d with
  | Decimal.Nil => []
  | Decimal.D0 d' => 48%N :: uint_chars d'
  | Decimal.D1 d' => 49%N :: uint_chars d'
  | Decimal.D2 d' => 50%N :: uint_chars d'
  | Decimal.D3 d' => 51%N :: uint_chars d'
  | Decimal.D4 d' => 52%N :: uint_chars d'
  | Decimal.D5 d' => 53%N :: uint_chars d'
  | Decimal.D6 d' => 54%N :: uint_chars d'
  | Decimal.D7 d' => 55%N :: uint_chars d'
  | Decimal.D8 d' => 56%N :: uint_chars d'
  | Decimal.D9 d' => 57%N :: uint_chars d'
  end.

Definition decimal (n : nat) : str := uint_chars (Nat.to_uint n).

Definition error_text (k : error_kind) : str :=
  match k with
  | UnexpectedBOM => $"Unexpected UTF-8 BOM (decode using utf-8-sig)"
  | ExpectingValue => $"Expecting value"
  | ExtraData => $"Extra data"
  | UnterminatedString => $"Unterminated string starting at"
  | InvalidControlCharacter => $"Invalid control character at"
  | InvalidEscape => $"Invalid \escape"
  | InvalidUnicodeEscape => $"Invalid \uXXXX escape"
  | ExpectingPropertyName =>
      $"Expecting property name enclosed in double quotes"
  | ExpectingColon => $"Expecting ':' delimiter"
  | ExpectingComma => $"Expecting ',' delimiter"
  end.

(** Line and column of an index, counted from 1. *)
Fixpoint line_col (doc : str) (pos line col : nat) : nat * nat :=
  match pos, doc with
  | S pos', c :: doc' =>
      if (c =? 10)%N then line_col doc' pos' (S line) 1
      else line_col doc' pos' line (S col)
  | _, _ => (line, col)
  end.

(** [str(e)] of a [JSONDecodeError]. *)
Definition decode_error_str (e : JSONDecodeError) : str :=
  let (line, col) := line_col (e_doc e) (e_pos e) 1 1 in
  error_text (e_msg e) ++ $": line " ++ decimal line ++ $" column "
    ++ decimal col ++ $" (char " ++ decimal (e_pos e) ++ $")".

(** ** Block extraction with JSON *)

Definition NO_JSON_BLOCK : str := $"No valid JSON block found in the input.".
Definition INVALID_JSON : str := $"Invalid JSON content: ".

(** [extract_json_block] *)
Definition extract_json_block (text : str) : outcome json :=
  match re_search JSON_OBJECT_PATTERN text with
  | None => Raise (ValueError NO_JSON_BLOCK)
  | Some m =>
      let json_str := group_or_empty m 1 in
      match json_loads json_str with
      | Decoded v => Return v
      | Malformed e => Raise (ValueError (INVALID_JSON ++ decode_error_str e))
      | Unfinished => Diverge
      end
  end.

(** [data[key]] with a [str] key. *)
Definition subscript (data : json) (key : str) : outcome json :=
  match data with
  | JObject d =>
      match dict_get key d with
      | Some v => Return v
      | None => Raise (KeyError key)
      end
  | _ => Raise TypeError
  end.

Definition CHANGES_MADE : str := $"changes_made".

(** [extract_changes_made_block]; the empty list is [JArray []]. *)
Definition extract_changes_made_block (text : str) : outcome (bool * json) :=
  let matches := re_findall JSON_BLOCK_PATTERN text in
  if Nat.eqb (length matches) 0 then Return (false, JArray [])
  else
    let block := strip (last matches []) in
    match json_loads block with
    | Decoded data =>
        match subscript data CHANGES_MADE with
        | Return changes => Return (true, changes)
        | Raise e => Raise e
        | Diverge => Diverge
        end
    | Malformed e => Raise (DecodeError e)
    | Unfinished => Diverge
    end.

(** ** Owner and repository of the origin remote *)

(** What the lookup [config['remote "origin"']['url']] in [.git/config]
    comes to. *)
Inductive git_config :=
| ConfigMissing (config_path : str)   (* the file does not exist *)
| OriginMissing                        (* the lookup raises KeyError *)
| OriginUrl (url : str).

(** [get_owner_and_repo_from_git_config]: the pair it returns and the
    lines it prints. *)
Definition get_owner_and_repo_from_git_config (cfg : git_config)
  : (option str * option str) * list str :=
  match cfg with
  | ConfigMissing config_path =>
      ((None, None), [$"*** ERROR: File not found: " ++ config_path])
  | OriginMissing =>
      ((None, None), [$"Could not find 'origin' remote in git config."])
  | OriginUrl url =>
      match re_match GITHUB_URL_PATTERN url with
      | Some m => ((group (m_groups m) 1, group (m_groups m) 2), [])
      | None =>
          ((None, None), [$"Could not parse GitHub owner/repo from URL."])
      end
  end.

(** ** The free-form verdict *)

Record panel := {
  p_text : str; p_title : str; p_subtitle : option str; p_style : str;
  p_fit : bool                          (* [Panel.fit] or [Panel] *)
}.

Inductive shown :=
| Line (s : str)                       (* print(s) *)
| Boxed (p : panel)                    (* console.print(Panel...) *)
| Appended (path text : str).          (* f.write to a file opened 'a+' *)

Definition LINT_FAIL : str := $"LINT_FAIL".

Definition FAIL_STYLE : str := $"bold red".
Definition PASS_STYLE : str := $"bold green".
Definition FAIL_TEXT : str := 10060%N :: $" Commit message needs revision.".
Definition PASS_TEXT : str :=
  9989%N :: $" Commit message passed all lint checks.".

(** An f-string field: [str(x)], with [None] for a missing value. *)
Definition format_opt (x : option str) : str :=
  match x with Some s => s | None => $"None" end.

(** [print_linter_output]: the output panel, an empty line, the verdict
    panel. *)
Definition print_linter_output (results : str) (repo : option str)
  : list shown :=
  let results := strip results in
  let (verdict_style, verdict_text) :=
    if contains LINT_FAIL results
    then (FAIL_STYLE, FAIL_TEXT) else (PASS_STYLE, PASS_TEXT) in
  [ Boxed {| p_text := results;
             p_title := $"Lint Output for " ++ [QUOTE] ++ format_opt repo
                          ++ [QUOTE];
             p_subtitle := Some $"Powered by LLM";
             p_style := $"green"; p_fit := true |};
    Line [];
    Boxed {| p_text := verdict_text; p_title := $"Verdict";
             p_subtitle := None; p_style := verdict_style;
             p_fit := false |} ].

(** The verdict a rendering carries: the text and style of its last panel. *)
Inductive verdict := Pass | Fail.

Definition verdict_of (out : list shown) : option verdict :=
  match last out (Line []) with
  | Boxed p =>
      if str_eqb (p_text p) FAIL_TEXT && str_eqb (p_style p) FAIL_STYLE
      then Some Fail
      else if str_eqb (p_text p) PASS_TEXT && str_eqb (p_style p) PASS_STYLE
      then Some Pass
      else None
  | _ => None
  end.

(** ** The entry-point commands, from the retry loop on *)

(** What one call of [ollama.chat] comes to. *)
Inductive reply :=
| Content (text : str)
| Failure.

(** The gateway answers the [n]-th call; the world counts the calls made
    and collects what was shown. *)
Definition gateway := nat -> str -> str -> reply.

Record world := { calls : nat; output : list shown }.

Definition prog (A : Type) := world -> outcome A * world.

Definition ret {A} (a : A) : prog A := fun w => (Return a, w).

Definition raise {A} (e : exn) : prog A := fun w => (Raise e, w).

Definition seq {A B} (x : prog A) (f : A -> prog B) : prog B :=
  fun w =>
    match x w with
    | (Return a, w') => f a w'
    | (Raise e, w') => (Raise e, w')
    | (Diverge, w') => (Diverge, w')
    end.

Notation "x <- c ;; k" := (seq c (fun x => k))
  (at level 61, c at next level, right associativity).
Notation "c ;;; k" := (seq c (fun _ => k))
  (at level 61, right associativity).

Definition show (items : list shown) : prog unit :=
  fun w => (Return tt, {| calls := calls w; output := output w ++ items |}).

(** [send_prompt_to_LLM] *)
Definition send_prompt_to_LLM (llm : gateway) (prompt model : str)
  : prog str :=
  fun w =>
    let w' := {| calls := S (calls w); output := output w |} in
    match llm (calls w) prompt model with
    | Content text => (Return text, w')
    | Failure => (Raise GatewayError, w')
    end.

Definition no_of_attempts : nat := 3.

Definition WARNING_LLMLINTER : str :=
  $"[bold yellow]WARNING: Please double-check since LLMs can still make mistakes.[/]".
Definition WARNING_LINT_COMMIT : str :=
  $"[bold yellow]WARNING: Please double-check since LLMs can make still make mistakes.[/]".

(** A local that may still be unassigned when it is read. *)
Definition read_local {A} (x : option A) : prog A :=
  match x with Some a => ret a | None => raise UnboundLocalError end.

Module Llmlinter.

(** [for x in range(n)]: ask, and stop at the first answer that is not
    blank. *)
Fixpoint attempt_loop (llm : gateway) (prompt model : str) (n : nat)
  (results : option str) : prog (option str) :=
  match n with
  | O => ret results
  | S n' =>
      r <- send_prompt_to_LLM llm prompt model ;;
      match strip r with
      | _ :: _ => ret (Some r)                      (* break *)
      | [] => attempt_loop llm prompt model n' (Some r)
      end
  end.

(** [lint_head_commit_message] of [llmlinter.py], once [prompt] is
    built. *)
Definition lint_head_commit_message (llm : gateway)
  (prompt model : str) (repo output_path : option str) : prog str :=
  results <- attempt_loop llm prompt model no_of_attempts None ;;
  show [Line []] ;;;
  results <- read_local results ;;
  show (print_linter_output results repo) ;;;
  match output_path with
  | Some path => show [Appended path (strip results ++ NL ++ NL)]
  | None => ret tt
  end ;;;
  show [Line WARNING_LLMLINTER] ;;;
  ret results.

End Llmlinter.

Module LintCommit.

(** [for x in range(n)]: ask, print, and leave the loop. *)
Definition attempt_loop (llm : gateway) (prompt model : str) (n : nat)
  (results : option str) : prog (option str) :=
  match n with
  | O => ret results
  | S _ =>
      r <- send_prompt_to_LLM llm prompt model ;;
      show [Line r] ;;;
      ret (Some r)                                  (* break *)
  end.

(** [lint_head_commit_mesasge] of [lint_commit.py], once [prompt] is
    built. *)
Definition lint_head_commit_mesasge (llm : gateway)
  (prompt model : str) : prog (option str) :=
  results <- attempt_loop llm prompt model no_of_attempts None ;;
  show [Line []] ;;;
  show [Line WARNING_LINT_COMMIT] ;;;
  ret results.

End LintCommit.

(** A gateway that plays back a list of answers and fails afterwards. *)
Definition scripted (answers : list str) : gateway :=
  fun n _ _ =>
    match nth_error answers n with
    | Some text => Content text
    | None => Failure
    end.

Definition fresh : world := {| calls := 0; output := [] |}.

(** ** Reference functions for the proofs *)

(** The first suffix of [s], longest first, that [k] accepts: what a lazy
    [.*?] does before its continuation. *)
Fixpoint first_suffix {A} (k : str -> option A) (s : str) : option A :=
  orelse (k s)
    match s with
    | _ :: s' => first_suffix k s'
    | [] => None
    end.

(** A greedy run of a class before its continuation: the longest run
    first, then ever shorter ones. *)
Fixpoint greedy_class {A} (p : char -> bool) (k : str -> option A) (s : str)
  : option A :=
  match s with
  | c :: s' => if p c then orelse (greedy_class p k s') (k s) else k s
  | [] => k s
  end.

(** The first closing brace that only whitespace separates from a fence:
    what precedes the brace and what follows the fence. *)
Fixpoint find_close (s : str) : option (str * str) :=
  match s with
  | [] => None
  | c :: s' =>
      match (if (c =? RBRACE)%N
             then strip_prefix FENCE (lstrip s') else None) with
      | Some post => Some ([], post)
      | None =>
          match find_close s' with
          | Some (b, post) => Some (c :: b, post)
          | None => None
          end
      end
  end.

(** ** Fenced blocks, as the specification speaks of them *)

(** [text] holds a block of kind [tag] with the given body: a fence with
    the tag, the body, and the next fence, which closes it. *)
Definition fenced_block (tag text body : str) : Prop :=
  exists pre rest post,
    text = pre ++ (FENCE ++ tag) ++ rest
    /\ find_sub FENCE rest = Some (body, post).

Definition has_fenced_block (tag text : str) : Prop :=
  exists body, fenced_block tag text body.

Definition is_object (v : json) : Prop :=
  match v with JObject _ => True | _ => False end.

(** A blank answer: nothing is left of it once trimmed. *)
Definition blank (s : str) : bool :=
  match strip s with [] => true | _ :: _ => false end.

(** The two kinds of block that are returned as text. *)
Inductive text_kind := Markdown | PlainText.

Definition tag_of (k : text_kind) : str :=
  match k with Markdown => $"markdown" | PlainText => $"text" end.


Definition extract_block (k : text_kind) : str -> str :=
  match k with
  | Markdown => extract_markdown_block
  | PlainText => extract_text_block
  end.


Definition two_json_blocks : str :=
  JSON_OPEN ++ $"{" ++ [QUOTE] ++ $"verdict" ++ [QUOTE] ++ $": 1}" ++ NL
  ++ FENCE ++ NL
  ++ JSON_OPEN ++ $"{" ++ [QUOTE] ++ $"verdict" ++ [QUOTE] ++ $": 2}" ++ NL
  ++ FENCE ++ NL.

Definition no_block_of_kind : str :=
  $"A stray ``` fence, then" ++ NL ++ $"```python" ++ NL ++ $"print(1)" ++ NL
  ++ FENCE ++ NL ++ $"and no more.".


Definition json_array_block : str :=
  $"Result:" ++ NL ++ JSON_OPEN ++ $"[1, 2]" ++ NL ++ FENCE ++ NL.

(** Every way to split [s] around an occurrence of [p]. *)
Fixpoint splits_at (p s : str) : list (str * str) :=
  match strip_prefix p s with
  | Some r => [([], r)]
  | None => []
  end ++
  match s with
  | c :: s' => map (fun ar => (c :: fst ar, snd ar)) (splits_at p s')
  | [] => []
  end.

(** The longest prefix inside a class, and what follows it. *)
Fixpoint take_while (p : char -> bool) (s : str) : str :=
  match s with
  | c :: s' => if p c then c :: take_while p s' else []
  | [] => []
  end.

Fixpoint drop_while (p : char -> bool) (s : str) : str :=
  match s with
  | c :: s' => if p c then drop_while p s' else s
  | [] => []
  end.

Definition HTTPS_PREFIX : str := $"https://github.com/".
Definition SSH_PREFIX : str := $"git@github.com:".
Definition SLASH : char := 47%N.
Definition DOT : char := 46%N.

(** The GitHub forms of a remote URL: one of the two prefixes, an owner
    without a slash, a slash, and a repository name that starts without
    a dot; anything may follow. *)
Definition github_form (url : str) : Prop :=
  exists prefix owner repo rest,
    (prefix = HTTPS_PREFIX \/ prefix = SSH_PREFIX)
    /\ url = prefix ++ owner ++ [SLASH] ++ repo ++ rest
    /\ owner <> [] /\ ~ In SLASH owner
    /\ repo <> [] /\ ~ In DOT repo.

(** The same, decided. *)
Definition github_formb (url : str) : bool :=
  match (match strip_prefix HTTPS_PREFIX url with
         | Some s => Some s
         | None => strip_prefix SSH_PREFIX url
         end) with
  | Some (c :: t) =>
      noneof SLASH c &&
      match drop_while (noneof SLASH) t with
      | x :: d :: _ => (x =? SLASH)%N && noneof DOT d
      | _ => false
      end
  | _ => false
  end.

(** The pattern after the prefix of a GitHub URL. *)
Definition URL_TAIL : regex :=
  Cat (Group 1 (Plus true (Class (noneof 47%N))))
   (Cat (Lit $"/")
    (Cat (Group 2 (Plus true (Class (noneof 46%N))))
         (Opt (Group 3 (Lit $".git"))))).

Definition url_tail_ok (s1 : str) : bool :=
  match s1 with
  | c :: t =>
      noneof SLASH c &&
      match drop_while (noneof SLASH) t with
      | x :: d :: _ => (x =? SLASH)%N && noneof DOT d
      | _ => false
      end
  | [] => false
  end.

(** ** The structured verdict and its serialization *)
















(** ** The extractors by kind, and the whole free-form command *)

(** The opening line of a block of a kind. *)
Definition opening_of (k : text_kind) : str := FENCE ++ tag_of k ++ NL.

(** The prompt of [lint_head_commit_message] in [llmlinter.py]: the two
    f-strings, with the commit message and the rules put in. *)
Definition build_prompt (head_commit rules : str) : str :=
  (NL ++ $"You are an expert in Git commit message standards. Act as a strict linter."
   ++ NL ++ NL ++ $"The commit_message is:" ++ NL ++ head_commit ++ NL)
  ++ (NL ++ $"REQUIREMENTS" ++ NL ++ rules ++ NL ++ NL
      ++ $"Give a verdict in the form " ++ [QUOTE] ++ $"LINT_FAIL | LINT_PASS"
      ++ [QUOTE] ++ $" . The verdict should be the" ++ NL
      ++ $"final line. E.g. 'Verdict: LINT_FAIL'. Talk in the third person."
      ++ NL ++ $"Be professional." ++ NL).

(** The panel that shows the commit under review. *)
Definition head_commit_panel (head_commit : str) (repo : option str)
  : panel :=
  {| p_text := head_commit;
     p_title := $"Head Commit for " ++ [QUOTE] ++ format_opt repo ++ [QUOTE];
     p_subtitle := Some $"This commit will be reviewed";
     p_style := $"cyan"; p_fit := true |}.

(** [lint_head_commit_message] of [llmlinter.py] as a whole, given what
    its collaborators return: the lookup in [.git/config], the output of
    [git show] and the contents of the rules file. *)
Definition lint_command (cfg : git_config) (head_commit rules : str)
  (llm : gateway) (model : str) (output_path : option str) : prog str :=
  let (pair, reported) := get_owner_and_repo_from_git_config cfg in
  let repo := snd pair in
  show (map Line reported) ;;;
  show [Line []] ;;;
  show [Boxed (head_commit_panel head_commit repo)] ;;;
  show [Line []] ;;;
  Llmlinter.lint_head_commit_message llm (build_prompt head_commit rules)
    model repo output_path.

(** What the command shows once the loop has settled on [results]. *)
Definition shown_after_loop (results : str) (repo output_path : option str)
  : list shown :=
  [Line []] ++ print_linter_output results repo
  ++ match output_path with
     | Some path => [Appended path (strip results ++ NL ++ NL)]
     | None => []
     end
  ++ [Line WARNING_LLMLINTER].

Definition socket_io_url : str := $"https://github.com/socketio/socket.io.git".

(** The verdicts among the things shown: one for each panel titled
    "Verdict". *)
Definition shown_verdicts (out : list shown) : list verdict :=
  flat_map (fun item =>
    match item with
    | Boxed p =>
        if str_eqb (p_title p) $"Verdict" then
          match verdict_of [item] with Some v => [v] | None => [] end
        else []
    | _ => []
    end) out.

(** What was appended to files: the path and the text, in order. *)
Definition appended_in (out : list shown) : list (str * str) :=
  flat_map (fun item =>
    match item with
    | Appended path text => [(path, text)]
    | _ => []
    end) out.

(** The backtick, of which a fence has three. *)
Definition BACKTICK : char := 96%N.

(** The bodies of the blocks met from left to right: the first opening
    line, the body up to the next fence, and on from behind that fence. *)
Fixpoint fenced_bodies (fuel : nat) (opening s : str) : list str :=
  match fuel with
  | O => []
  | S fuel' =>
      match find_sub opening s with
      | None => []
      | Some (_, rest) =>
          match find_sub FENCE rest with
          | None => []
          | Some (body, post) => body :: fenced_bodies fuel' opening post
          end
      end
  end.

(** More sample responses. *)
Definition prose_then_object : str :=
  $"Here is the verdict:" ++ NL ++ $"```json {" ++ [QUOTE] ++ $"verdict"
  ++ [QUOTE] ++ $": 1}" ++ NL ++ FENCE ++ $" Thanks.".

Definition draft_then_changes : str :=
  $"Draft:" ++ NL ++ JSON_OPEN ++ $"{not yet" ++ NL ++ FENCE ++ NL
  ++ $"Final:" ++ NL ++ JSON_OPEN ++ $"{" ++ [QUOTE] ++ $"changes_made"
  ++ [QUOTE] ++ $": [1]}" ++ NL ++ FENCE ++ NL.

(** A run of the free-form command on a clone of socket.io, with a
    gateway that plays back [answers]. *)
Definition sample_run (answers : list str) (output_path : option str)
  : prog str :=
  lint_command (OriginUrl socket_io_url) $"Fix bug" $"Be brief"
    (scripted answers) $"llama3" output_path.

(** * Properties *)

(** ** Strings *)

Lemma strip_prefix_app (p s : str) : strip_prefix p (p ++ s) = Some s.
Proof.
  induction p as [|a p IH]; simpl; [reflexivity|].
  now rewrite N.eqb_refl.
Qed.

Lemma strip_prefix_Some (p s r : str) :
  strip_prefix p s = Some r -> s = p ++ r.
Proof.
  revert s; induction p as [|a p IH]; simpl; intros s H.
  - now inversion H.
  - destruct s as [|c s]; [discriminate|].
    destruct (N.eqb_spec a c); [|discriminate].
    subst; f_equal; auto.
Qed.

Lemma strip_prefix_iff (p s r : str) :
  strip_prefix p s = Some r <-> s = p ++ r.
Proof.
  split; [apply strip_prefix_Some|intros ->; apply strip_prefix_app].
Qed.

Lemma strip_prefix_None (p s : str) :
  strip_prefix p s = None <-> forall r, s <> p ++ r.
Proof.
  split.
  - intros H r ->. rewrite strip_prefix_app in H. discriminate.
  - intros H. destruct (strip_prefix p s) eqn:E; [|reflexivity].
    apply strip_prefix_Some in E. now apply H in E.
Qed.

Lemma find_sub_Some (p s b post : str) :
  find_sub p s = Some (b, post) -> s = b ++ p ++ post.
Proof.
  revert b; induction s as [|c s IH]; intros b; simpl.
  - destruct (strip_prefix p []) eqn:E; [|discriminate].
    intros H; inversion H; subst. now apply strip_prefix_Some in E.
  - destruct (strip_prefix p (c :: s)) eqn:E.
    + intros H; inversion H; subst. now apply strip_prefix_Some in E.
    + destruct (find_sub p s) as [[b' post']|]; [|discriminate].
      intros H; inversion H; subst. simpl. f_equal. now apply IH.
Qed.

(** [find_sub] stops at the first occurrence. *)
Lemma find_sub_first (p s b post a r : str) :
  find_sub p s = Some (b, post) -> s = a ++ p ++ r -> length b <= length a.
Proof.
  revert b a; induction s as [|c s IH]; intros b a; simpl.
  - destruct (strip_prefix p []); [|discriminate].
    intros H; inversion H; simpl; lia.
  - destruct (strip_prefix p (c :: s)) eqn:E.
    + intros H; inversion H; simpl; lia.
    + destruct (find_sub p s) as [[b' post']|] eqn:F; [|discriminate].
      intros H Hs; inversion H; subst.
      destruct a as [|x a]; simpl in Hs.
      * rewrite Hs, strip_prefix_app in E. discriminate.
      * inversion Hs; subst. simpl. apply le_n_S. now apply (IH b' a).
Qed.

Lemma find_sub_None (p s : str) :
  find_sub p s = None -> forall a r, s <> a ++ p ++ r.
Proof.
  induction s as [|c s IH]; simpl.
  - destruct (strip_prefix p []) eqn:E; [discriminate|].
    intros _ a r H. destruct a; simpl in H.
    + rewrite H, strip_prefix_app in E. discriminate.
    + discriminate.
  - destruct (strip_prefix p (c :: s)) eqn:E; [discriminate|].
    destruct (find_sub p s) as [[b post]|] eqn:F; [discriminate|].
    intros _ a r H. destruct a as [|x a]; simpl in H.
    + rewrite H, strip_prefix_app in E. discriminate.
    + inversion H; subst. now apply (IH eq_refl a r).
Qed.

(** A split at the first occurrence is what [find_sub] returns. *)
Lemma find_sub_complete (p b post : str) :
  (forall a r, b ++ p ++ post = a ++ p ++ r -> length b <= length a) ->
  find_sub p (b ++ p ++ post) = Some (b, post).
Proof.
  intros Hfirst.
  destruct (find_sub p (b ++ p ++ post)) as [[b' post']|] eqn:F.
  - pose proof (find_sub_Some _ _ F) as Hs.
    pose proof (find_sub_first _ b post F eq_refl) as Hle.
    pose proof (Hfirst _ _ Hs) as Hge.
    assert (E : length b' = length b) by lia.
    assert (Hb : b' = b).
    { apply (f_equal (firstn (length b))) in Hs.
      rewrite firstn_app, Nat.sub_diag, firstn_all in Hs. simpl in Hs.
      rewrite app_nil_r in Hs. rewrite Hs, <- E.
      rewrite firstn_app, Nat.sub_diag, firstn_all. simpl.
      now rewrite app_nil_r. }
    subst b'. apply app_inv_head in Hs. apply app_inv_head in Hs.
    now subst.
  - exfalso. exact (find_sub_None _ F b post eq_refl).
Qed.

Lemma contains_spec (p s : str) :
  contains p s = true <-> exists a b, s = a ++ p ++ b.
Proof.
  induction s as [|c s IH]; simpl; unfold startswith.
  - destruct (strip_prefix p []) as [l|] eqn:E; simpl.
    + split; [|reflexivity]. intros _. exists [], l.
      now apply strip_prefix_Some in E.
    + split; [discriminate|]. intros (a & b & H).
      destruct a; simpl in H; [|discriminate].
      rewrite H, strip_prefix_app in E. discriminate.
  - destruct (strip_prefix p (c :: s)) as [l|] eqn:E; simpl.
    + split; [|reflexivity]. intros _. exists [], l.
      now apply strip_prefix_Some in E.
    + rewrite IH. split.
      * intros (a & b & ->). now exists (c :: a), b.
      * intros (a & b & H). destruct a as [|x a]; simpl in H.
        -- rewrite H, strip_prefix_app in E. discriminate.
        -- inversion H; subst. now exists a, b.
Qed.

Lemma orelse_None_r {A} (x : option A) : orelse x None = x.
Proof. now destruct x. Qed.

(** ** The matcher *)

Section MatcherFacts.
Variable A : Type.
Implicit Types (k : cont A) (s : str) (g : groups).

(** A lazy [.*?] tries its continuation at every suffix, longest first. *)
Lemma iter_lazy_any n s g k :
  length s <= n ->
  iter false (run (A:=A) (Class any)) n s g k
  = first_suffix (fun t => k t g) s.
Proof.
  revert s; induction n as [|n IH]; intros s Hn.
  - destruct s; [|simpl in Hn; lia]. simpl. now rewrite orelse_None_r.
  - destruct s as [|c s]; simpl.
    + reflexivity.
    + assert (L : Nat.ltb (length s) (S (length s)) = true)
        by (apply Nat.ltb_lt; lia).
      rewrite L, IH by (simpl in Hn; lia). reflexivity.
Qed.

(** A greedy run of a class tries the longest run first. *)
Lemma iter_greedy_class p n s g k :
  length s <= n ->
  iter true (run (A:=A) (Class p)) n s g k
  = greedy_class p (fun t => k t g) s.
Proof.
  revert s; induction n as [|n IH]; intros s Hn.
  - destruct s; [|simpl in Hn; lia]. reflexivity.
  - destruct s as [|c s]; simpl.
    + reflexivity.
    + destruct (p c); [|reflexivity].
      assert (L : Nat.ltb (length s) (S (length s)) = true)
        by (apply Nat.ltb_lt; lia).
      rewrite L, IH by (simpl in Hn; lia). reflexivity.
Qed.

(** When what follows cannot start inside the class, only the whole run
    is left. *)
Lemma greedy_class_skip (k : str -> option A) s :
  (forall c t, isspace c = true -> k (c :: t) = None) ->
  greedy_class space k s = k (lstrip s).
Proof.
  intros Hk; induction s as [|c s IH]; simpl; [reflexivity|].
  unfold space at 1. destruct (isspace c) eqn:E; [|reflexivity].
  rewrite IH, (Hk c s E). now rewrite orelse_None_r.
Qed.

(** Whatever a pattern matches, its continuation runs on a suffix. *)
Lemma run_suffix r : forall s g k a,
  run r s g k = Some a ->
  exists s' g', length s' <= length s /\ k s' g' = Some a.
Proof.
  induction r as [|l|p|r1 IH1 r2 IH2|r1 IH1 r2 IH2|gr r IH|i r IH];
    intros s g k a H; simpl in H.
  - exists s, g; split; [lia|assumption].
  - destruct (strip_prefix l s) as [s'|] eqn:E; [|discriminate].
    exists s', g. split; [|assumption].
    apply strip_prefix_Some in E. subst. rewrite length_app. lia.
  - destruct s as [|c s]; [discriminate|].
    destruct (p c); [|discriminate].
    exists s, g. split; [simpl; lia|assumption].
  - apply IH1 in H as (s1 & g1 & L1 & H).
    apply IH2 in H as (s2 & g2 & L2 & H).
    exists s2, g2. split; [lia|assumption].
  - unfold orelse in H. destruct (run r1 s g k) eqn:E.
    + rewrite <- E in H. now apply IH1 in H.
    + now apply IH2 in H.
  - revert H. generalize (length s) at 1. intros n. revert s g.
    induction n as [|n IHn]; intros s g H; simpl in H.
    + exists s, g; split; [lia|assumption].
    + assert (Hmore :
        run r s g (fun s' g' =>
          if Nat.ltb (length s') (length s)
          then iter gr (run r) n s' g' k else None) = Some a ->
        exists s' g', length s' <= length s /\ k s' g' = Some a).
      { intros Hm. apply IH in Hm as (s1 & g1 & L1 & Hm).
        destruct (Nat.ltb (length s1) (length s)); [|discriminate].
        apply IHn in Hm as (s2 & g2 & L2 & Hm).
        exists s2, g2. split; [lia|assumption]. }
      destruct gr; unfold orelse in H.
      * match type of H with
        | match ?x with _ => _ end = _ => destruct x eqn:E
        end.
        -- apply Hmore, H.
        -- exists s, g; split; [lia|assumption].
      * destruct (k s g) eqn:E.
        -- exists s, g. split; [lia|]. now rewrite E.
        -- apply Hmore, H.
  - apply IH in H as (s' & g' & L & H). eauto.
Qed.
End MatcherFacts.

Section RunEquations.
Variable A : Type.
Implicit Types (k : cont A) (s : str) (g : groups).

Lemma run_Lit l s g k :
  run (Lit l) s g k
  = match strip_prefix l s with Some s' => k s' g | None => None end.
Proof. reflexivity. Qed.

Lemma run_Cat r1 r2 s g k :
  run (Cat r1 r2) s g k = run r1 s g (fun s' g' => run r2 s' g' k).
Proof. reflexivity. Qed.

Lemma run_Alt r1 r2 s g k :
  run (Alt r1 r2) s g k = orelse (run r1 s g k) (run r2 s g k).
Proof. reflexivity. Qed.

Lemma run_Star gr r s g k :
  run (Star gr r) s g k = iter gr (run r) (length s) s g k.
Proof. reflexivity. Qed.

Lemma run_Group i r s g k :
  run (Group i r) s g k
  = run r s g (fun s' g' =>
      k s' ((i, firstn (length s - length s') s) :: g')).
Proof. reflexivity. Qed.
End RunEquations.

Lemma first_suffix_ext {A} (k k' : str -> option A) (s : str) :
  (forall t, k t = k' t) -> first_suffix k s = first_suffix k' s.
Proof.
  intros H; induction s as [|c s IH]; simpl; rewrite H; [reflexivity|].
  now rewrite IH.
Qed.

(** A lazy body before a literal ends at the literal's first occurrence. *)
Lemma first_suffix_find {A} (p : str) (h : str -> str -> A) (s : str) :
  first_suffix
    (fun t => match strip_prefix p t with
              | Some r => Some (h t r)
              | None => None
              end) s
  = match find_sub p s with
    | Some (_, post) => Some (h (p ++ post) post)
    | None => None
    end.
Proof.
  induction s as [|c s IH]; simpl.
  - destruct (strip_prefix p []) as [r|] eqn:E; [|reflexivity].
    simpl. now rewrite (strip_prefix_Some _ _ E) at 1.
  - destruct (strip_prefix p (c :: s)) as [r|] eqn:E.
    + simpl. now rewrite (strip_prefix_Some _ _ E) at 1.
    + simpl. rewrite IH. now destruct (find_sub p s) as [[b post]|].
Qed.

Lemma firstn_split_at (b t : str) :
  firstn (length (b ++ t) - length t) (b ++ t) = b.
Proof.
  rewrite length_app, Nat.add_sub.
  rewrite firstn_app, Nat.sub_diag, firstn_all. simpl. apply app_nil_r.
Qed.

(** One attempt of an opening line, a lazy body and a fence. *)
Lemma match_at_fenced (opening s : str) :
  match_at (fenced_pattern opening) false s
  = match strip_prefix opening s with
    | None => None
    | Some s1 =>
        match find_sub FENCE s1 with
        | Some (body, post) => Some ([(1, body)], post)
        | None => None
        end
    end.
Proof.
  unfold match_at, fenced_pattern. rewrite run_Cat, run_Lit.
  destruct (strip_prefix opening s) as [s1|]; [|reflexivity].
  rewrite run_Cat, run_Group, run_Star, iter_lazy_any by lia.
  rewrite (first_suffix_ext _
    (fun t => match strip_prefix FENCE t with
              | Some r =>
                  Some ([(1, firstn (length s1 - length t) s1)], r)
              | None => None
              end)).
  2:{ intros t. rewrite run_Lit. now destruct (strip_prefix FENCE t). }
  rewrite (first_suffix_find FENCE
    (fun t r => ([(1, firstn (length s1 - length t) s1)], r))).
  destruct (find_sub FENCE s1) as [[body post]|] eqn:F; [|reflexivity].
  apply find_sub_Some in F. subst s1.
  now rewrite firstn_split_at.
Qed.

(** [re.search] passes over the positions where the pattern fails. *)
Lemma search_from_skip (r : regex) (pre s : str) : forall pos,
  (forall a c b, pre = a ++ c :: b -> match_at r false (c :: b ++ s) = None) ->
  search_from r false pos (pre ++ s)
  = search_from r false (pos + length pre) s.
Proof.
  induction pre as [|x pre IH]; intros pos H; simpl.
  - now rewrite Nat.add_0_r.
  - rewrite (H [] x pre eq_refl).
    rewrite IH.
    + f_equal. lia.
    + intros a c b E. apply (H (x :: a) c b). simpl. now rewrite E.
Qed.

(** A match found by [re.search] is a match of the pattern at some
    position of the text. *)
Lemma search_from_Some (r : regex) (s : str) : forall pos m,
  search_from r false pos s = Some m ->
  exists pre suf rest,
    s = pre ++ suf /\ match_at r false suf = Some (m_groups m, rest).
Proof.
  induction s as [|c s IH]; intros pos m; simpl.
  - destruct (match_at r false []) as [[g rest]|] eqn:E; [|discriminate].
    intros H; inversion H; subst; simpl.
    exists [], [], rest. split; [reflexivity|assumption].
  - destruct (match_at r false (c :: s)) as [[g rest]|] eqn:E.
    + intros H; inversion H; subst; simpl.
      exists [], (c :: s), rest. split; [reflexivity|assumption].
    + intros H. apply IH in H as (pre & suf & rest & -> & H).
      exists (c :: pre), suf, rest. split; [reflexivity|assumption].
Qed.

(** The closing brace and fence of the JSON-object pattern, tried at
    every suffix of the body. *)
Lemma first_suffix_find_close (s2 : str) : forall pre,
  first_suffix
    (fun t =>
       match (match t with
              | c :: t' =>
                  if (c =? RBRACE)%N
                  then strip_prefix FENCE (lstrip t') else None
              | [] => None
              end) with
       | Some post =>
           Some ([(1, firstn (length (pre ++ s2) - (length t - 1))
                        (pre ++ s2))], post)
       | None => None
       end) s2
  = match find_close s2 with
    | Some (b, post) => Some ([(1, pre ++ b ++ [RBRACE])], post)
    | None => None
    end.
Proof.
  induction s2 as [|x s2 IH]; intros pre; [reflexivity|].
  cbn [first_suffix find_close].
  destruct (if (x =? RBRACE)%N then strip_prefix FENCE (lstrip s2) else None)
    as [post|] eqn:E.
  - cbn [orelse]. do 4 f_equal.
    destruct (N.eqb_spec x RBRACE) as [->|]; [|discriminate].
    replace (length (RBRACE :: s2) - 1) with (length s2) by (simpl; lia).
    replace (pre ++ RBRACE :: s2) with ((pre ++ [RBRACE]) ++ s2)
      by now rewrite <- app_assoc.
    now rewrite firstn_split_at.
  - cbn [orelse].
    replace (pre ++ x :: s2) with ((pre ++ [x]) ++ s2)
      by now rewrite <- app_assoc.
    rewrite (IH (pre ++ [x])).
    destruct (find_close s2) as [[b post]|]; [|reflexivity].
    now rewrite <- app_assoc.
Qed.

(** One attempt of the JSON-object pattern: the opening tag, whitespace,
    an opening brace, and the first closing brace that only whitespace
    separates from a fence. *)
Lemma match_at_json_object (s : str) :
  match_at JSON_OBJECT_PATTERN false s
  = match strip_prefix $"```json" s with
    | None => None
    | Some s1 =>
        match lstrip s1 with
        | c :: s2 =>
            if (c =? LBRACE)%N then
              match find_close s2 with
              | Some (b, post) => Some ([(1, LBRACE :: b ++ [RBRACE])], post)
              | None => None
              end
            else None
        | [] => None
        end
    end.
Proof.
  unfold match_at, JSON_OBJECT_PATTERN. rewrite run_Cat, run_Lit.
  destruct (strip_prefix $"```json" s) as [s1|]; [|reflexivity].
  rewrite run_Cat, run_Star, (iter_greedy_class space) by lia.
  rewrite greedy_class_skip.
  2:{ intros c t Hc. rewrite run_Cat, run_Group, run_Cat, run_Lit.
      change $"{" with [LBRACE]. cbn [strip_prefix].
      destruct (N.eqb_spec LBRACE c) as [<-|]; [|reflexivity].
      discriminate Hc. }
  destruct (lstrip s1) as [|c s2] eqn:L; [reflexivity|].
  rewrite run_Cat, run_Group, run_Cat, run_Lit.
  change $"{" with [LBRACE]. cbn [strip_prefix]. rewrite N.eqb_sym.
  destruct (N.eqb_spec c LBRACE) as [->|]; [|reflexivity].
  rewrite run_Cat, run_Star, (iter_lazy_any) by lia.
  rewrite (first_suffix_ext _
    (fun t =>
       match (match t with
              | c :: t' =>
                  if (c =? RBRACE)%N
                  then strip_prefix FENCE (lstrip t') else None
              | [] => None
              end) with
       | Some post =>
           Some ([(1, firstn (length ([LBRACE] ++ s2) - (length t - 1))
                        ([LBRACE] ++ s2))], post)
       | None => None
       end)).
  2:{ intros t. rewrite run_Lit.
      change $"}" with [RBRACE]. cbn [strip_prefix].
      destruct t as [|x t]; [reflexivity|].
      rewrite N.eqb_sym.
      destruct (x =? RBRACE)%N; [|reflexivity].
      rewrite run_Cat, run_Star, (iter_greedy_class space) by lia.
      rewrite greedy_class_skip.
      - rewrite run_Lit.
        replace (length (x :: t) - 1) with (length t) by (simpl; lia).
        now destruct (strip_prefix FENCE (lstrip t)).
      - intros c t' Hc. rewrite run_Lit.
        change FENCE with [96; 96; 96]%N. cbn [strip_prefix].
        destruct (N.eqb_spec 96 c) as [<-|]; [|reflexivity].
        discriminate Hc. }
  exact (first_suffix_find_close s2 [LBRACE]).
Qed.

(** ** The free-form verdict *)



(** The examples of the specification. *)
Example verdict_of_fail_line :
  verdict_of (print_linter_output
                ($"The title is too long." ++ NL ++ $"Verdict: LINT_FAIL")
                None) = Some Fail.
Proof. reflexivity. Qed.

Example verdict_of_pass_line :
  verdict_of (print_linter_output $"Verdict: LINT_PASS" None) = Some Pass.
Proof. reflexivity. Qed.

Example verdict_of_no_token :
  verdict_of (print_linter_output $"lint_fail, perhaps" None) = Some Pass.
Proof. reflexivity. Qed.

(** ** The retry loops *)

(** The loop of [llmlinter.py] on three answers: the first one that is not
    blank, after as many calls as it took; the third one after three calls
    when all are blank. *)
Lemma llmlinter_attempt_loop (a1 a2 a3 : str) (more : list str)
  (prompt model : str) (w : world) :
  calls w = 0 ->
  Llmlinter.attempt_loop (scripted (a1 :: a2 :: a3 :: more)) prompt model
    no_of_attempts None w
  = if blank a1 then
      if blank a2 then
        (Return (Some a3), {| calls := 3; output := output w |})
      else (Return (Some a2), {| calls := 2; output := output w |})
    else (Return (Some a1), {| calls := 1; output := output w |}).
Proof.
  intros Hw. unfold blank, no_of_attempts.
  cbn [Llmlinter.attempt_loop]. unfold seq, send_prompt_to_LLM at 1.
  rewrite Hw. cbn [scripted nth_error calls output].
  destruct (strip a1); [|reflexivity].
  cbn [Llmlinter.attempt_loop]. unfold seq, send_prompt_to_LLM at 1.
  cbn [scripted nth_error calls output].
  destruct (strip a2); [|reflexivity].
  cbn [Llmlinter.attempt_loop]. unfold seq, send_prompt_to_LLM at 1.
  cbn [scripted nth_error calls output].
  now destruct (strip a3).
Qed.

Example llmlinter_third_answer (prompt model : str) :
  Llmlinter.attempt_loop (scripted [[]; []; $"ok"]) prompt model
    no_of_attempts None fresh
  = (Return (Some $"ok"), {| calls := 3; output := [] |}).
Proof. now rewrite llmlinter_attempt_loop. Qed.

Example llmlinter_all_empty (prompt model : str) :
  Llmlinter.attempt_loop (scripted [[]; []; []]) prompt model
    no_of_attempts None fresh
  = (Return (Some []), {| calls := 3; output := [] |}).
Proof. now rewrite llmlinter_attempt_loop. Qed.

(** Claim C2, at the input where [lint_commit.py] departs from it: with
    the answers "", "", "ok" the loop of [lint_head_commit_mesasge] leaves
    after one call, and the result is the empty first answer. *)
Theorem C2_lint_commit_single_attempt (prompt model : str) :
  LintCommit.attempt_loop (scripted [[]; []; $"ok"]) prompt model
    no_of_attempts None fresh
  = (Return (Some []), {| calls := 1; output := [Line []] |})
  /\ calls (snd (LintCommit.lint_head_commit_mesasge
                   (scripted [[]; []; $"ok"]) prompt model fresh)) = 1
  /\ fst (LintCommit.lint_head_commit_mesasge
            (scripted [[]; []; $"ok"]) prompt model fresh)
     = Return (Some []).
Proof. repeat split. Qed.

(** The loop of [lint_commit.py] never asks twice, whatever it is
    answered. *)
Lemma lint_commit_attempt_loop_calls (llm : gateway) (prompt model : str)
  (n : nat) (w : world) :
  calls (snd (LintCommit.attempt_loop llm prompt model n None w))
  <= S (calls w).
Proof.
  destruct n; simpl; [lia|].
  unfold seq, send_prompt_to_LLM, show.
  destruct (llm (calls w) prompt model); simpl; lia.
Qed.

(** ** Extraction of a JSON object *)



(** ** Extraction of the changes made *)


(** ** Fenced blocks and the patterns *)

(** The body of a block holds no fence. *)
Lemma find_sub_fence_free (s b post : str) :
  find_sub FENCE s = Some (b, post) -> forall a c, b <> a ++ FENCE ++ c.
Proof.
  intros F a c Hb.
  pose proof (find_sub_Some _ _ F) as Hs.
  assert (Hs' : s = a ++ FENCE ++ (c ++ FENCE ++ post)).
  { rewrite Hs, Hb. now rewrite <- !app_assoc. }
  pose proof (find_sub_first _ _ _ F Hs') as L.
  rewrite Hb, !length_app in L. simpl in L. lia.
Qed.

(** A text that holds a fence has a first one. *)
Lemma find_sub_exists (p s a r : str) :
  s = a ++ p ++ r -> exists b post, find_sub p s = Some (b, post).
Proof.
  intros H. destruct (find_sub p s) as [[b post]|] eqn:F; [eauto|].
  exfalso. exact (find_sub_None _ F a r H).
Qed.

Lemma search_from_hit (r : regex) (ma : bool) (pos : nat) (s : str)
  (g : groups) (rest : str) :
  match_at r ma s = Some (g, rest) ->
  search_from r ma pos s
  = Some {| m_start := pos; m_end := pos + (length s - length rest);
            m_groups := g |}.
Proof. intros H. destruct s; simpl; now rewrite H. Qed.

(** What [re.search] finds for an opening line, a lazy body and a fence:
    an occurrence of the line, and the body up to the next fence. *)
Lemma re_search_fenced_Some (opening text : str) (m : match_obj) :
  re_search (fenced_pattern opening) text = Some m ->
  exists pre body post,
    text = pre ++ opening ++ body ++ FENCE ++ post
    /\ find_sub FENCE (body ++ FENCE ++ post) = Some (body, post)
    /\ group_or_empty m 1 = body.
Proof.
  intros H. apply search_from_Some in H as (pre & suf & rest & -> & H).
  rewrite match_at_fenced in H.
  destruct (strip_prefix opening suf) as [s1|] eqn:P; [|discriminate].
  destruct (find_sub FENCE s1) as [[body post]|] eqn:F; [|discriminate].
  apply strip_prefix_Some in P. subst suf.
  pose proof (find_sub_Some _ _ F) as Hs. subst s1.
  exists pre, body, post. repeat split; [assumption|].
  unfold group_or_empty. inversion H as [[Hg Hr]]. reflexivity.
Qed.

(** The first opening line that a fence follows is the one [re.search]
    settles on, with the body up to that fence. *)
Lemma re_search_fenced_first (opening text pre rest body post : str) :
  find_sub opening text = Some (pre, rest) ->
  find_sub FENCE rest = Some (body, post) ->
  exists m, re_search (fenced_pattern opening) text = Some m
            /\ m_start m = length pre /\ group_or_empty m 1 = body.
Proof.
  intros Fo Ff. pose proof (find_sub_Some _ _ Fo) as Ht.
  unfold re_search. rewrite Ht, search_from_skip.
  - erewrite search_from_hit.
    2:{ rewrite match_at_fenced, strip_prefix_app, Ff. reflexivity. }
    eexists. repeat split.
  - intros a c b Hpre. rewrite match_at_fenced.
    destruct (strip_prefix opening (c :: b ++ opening ++ rest))
      as [s1|] eqn:P; [|reflexivity].
    exfalso. apply strip_prefix_Some in P.
    assert (Ht' : text = a ++ opening ++ s1).
    { rewrite Ht, Hpre, <- app_assoc. simpl. now rewrite P. }
    pose proof (find_sub_first _ _ _ Fo Ht') as L.
    rewrite Hpre, length_app in L. simpl in L. lia.
Qed.

Lemma lstrip_split (s : str) :
  exists sp, s = sp ++ lstrip s /\ Forall (fun c => isspace c = true) sp.
Proof.
  induction s as [|c s (sp & Hs & Hsp)]; simpl.
  - now exists [].
  - destruct (isspace c) eqn:E.
    + exists (c :: sp). split; [simpl; now rewrite <- Hs|].
      now constructor.
    + now exists [].
Qed.

Lemma find_close_Some (s b post : str) :
  find_close s = Some (b, post) ->
  exists sp, s = b ++ RBRACE :: sp ++ FENCE ++ post
             /\ Forall (fun c => isspace c = true) sp.
Proof.
  revert b; induction s as [|c s IH]; intros b; cbn [find_close]; [discriminate|].
  destruct (if (c =? RBRACE)%N then strip_prefix FENCE (lstrip s) else None)
    as [p|] eqn:E.
  - intros H; inversion H; subst.
    destruct (N.eqb_spec c RBRACE) as [->|]; [|discriminate].
    apply strip_prefix_Some in E.
    destruct (lstrip_split s) as (sp & Hs & Hsp).
    exists sp. split; [|assumption]. cbn [app]. now rewrite <- E, <- Hs.
  - destruct (find_close s) as [[b' post']|]; [|discriminate].
    intros H; inversion H; subst.
    destruct (IH b' eq_refl) as (sp & Hs & Hsp).
    exists sp. split; [|assumption]. cbn [app]. now rewrite <- Hs.
Qed.

(** What [re.search] finds for the JSON-object pattern: an opening tag,
    whitespace, a brace-delimited body, whitespace, and a fence. *)
Lemma re_search_json_object_Some (text : str) (m : match_obj) :
  re_search JSON_OBJECT_PATTERN text = Some m ->
  exists pre sp1 b sp2 post,
    text = pre ++ $"```json" ++ sp1 ++ LBRACE :: b ++ RBRACE :: sp2
               ++ FENCE ++ post
    /\ Forall (fun c => isspace c = true) sp1
    /\ Forall (fun c => isspace c = true) sp2
    /\ group_or_empty m 1 = LBRACE :: b ++ [RBRACE].
Proof.
  intros H. apply search_from_Some in H as (pre & suf & rest & -> & H).
  rewrite match_at_json_object in H.
  destruct (strip_prefix $"```json" suf) as [s1|] eqn:P; [|discriminate].
  destruct (lstrip s1) as [|c s2] eqn:L; [discriminate|].
  destruct (N.eqb_spec c LBRACE) as [->|]; [|discriminate].
  destruct (find_close s2) as [[b post]|] eqn:F; [|discriminate].
  apply strip_prefix_Some in P. subst suf.
  destruct (lstrip_split s1) as (sp1 & Hs1 & Hsp1). rewrite L in Hs1.
  destruct (find_close_Some _ F) as (sp2 & Hs2 & Hsp2).
  exists pre, sp1, b, sp2, post. repeat split; try assumption.
  - now rewrite Hs1, Hs2.
  - unfold group_or_empty. inversion H as [[Hg Hr]]. reflexivity.
Qed.

(** Whenever one of the patterns matches, the text holds a fenced block
    of its kind. *)
Lemma fenced_match_has_block (tag text : str) (m : match_obj) :
  re_search (fenced_pattern (FENCE ++ tag ++ NL)) text = Some m ->
  has_fenced_block tag text.
Proof.
  intros H.
  apply re_search_fenced_Some in H as (pre & body & post & -> & F & _).
  exists (NL ++ body), pre, (NL ++ body ++ FENCE ++ post), post. split.
  - now rewrite <- !app_assoc.
  - change (NL ++ body ++ FENCE ++ post)
      with (10%N :: body ++ FENCE ++ post).
    cbn [find_sub]. change (strip_prefix FENCE (10%N :: body ++ FENCE ++ post))
      with (@None str).
    now rewrite F.
Qed.

Lemma json_object_match_has_block (text : str) (m : match_obj) :
  re_search JSON_OBJECT_PATTERN text = Some m ->
  has_fenced_block $"json" text.
Proof.
  intros H.
  apply re_search_json_object_Some in H
    as (pre & sp1 & b & sp2 & post & -> & _ & _ & _).
  destruct (@find_sub_exists FENCE
              (sp1 ++ LBRACE :: b ++ RBRACE :: sp2 ++ FENCE ++ post)
              (sp1 ++ LBRACE :: b ++ RBRACE :: sp2) post)
    as (body & post' & F).
  { rewrite <- !app_assoc. simpl. now rewrite <- !app_assoc. }
  exists body, pre, (sp1 ++ LBRACE :: b ++ RBRACE :: sp2 ++ FENCE ++ post),
    post'.
  split; [reflexivity|assumption].
Qed.

Lemma re_findall_nil (r : regex) (s : str) :
  re_search r s = None -> re_findall r s = [].
Proof.
  unfold re_findall, re_search. intros H.
  replace (2 * length s + 2) with (S (2 * length s + 1)) by lia.
  cbn [findall_loop]. now rewrite H.
Qed.

Lemma re_findall_cons (r : regex) (s : str) (m : match_obj) :
  re_search r s = Some m ->
  exists others, re_findall r s = group_or_empty m 1 :: others.
Proof.
  unfold re_findall, re_search. intros H.
  replace (2 * length s + 2) with (S (2 * length s + 1)) by lia.
  cbn [findall_loop]. rewrite H. eauto.
Qed.


Lemma has_fenced_block_contains (tag text : str) :
  has_fenced_block tag text -> contains (FENCE ++ tag) text = true.
Proof.
  intros (body & pre & rest & post & -> & _). apply contains_spec.
  now exists pre, rest.
Qed.

(** ** Which block is returned *)




(** The first block by position: the leftmost opening line and the body
    up to the next fence. *)
Lemma first_block_by_position (k : text_kind) (text pre rest body post : str) :
  find_sub (FENCE ++ tag_of k ++ NL) text = Some (pre, rest) ->
  find_sub FENCE rest = Some (body, post) ->
  extract_block k text = strip body.
Proof.
  intros Fo Ff.
  destruct (re_search_fenced_first _ _ Fo Ff) as (m & Hm & _ & Hg).
  destruct k; cbn [extract_block];
    unfold extract_markdown_block, extract_text_block;
    [change MARKDOWN_PATTERN with (fenced_pattern (FENCE ++ $"markdown" ++ NL))
    |change TEXT_PATTERN with (fenced_pattern (FENCE ++ $"text" ++ NL))];
    cbn [tag_of] in Hm; now rewrite Hm, Hg.
Qed.

(** ** No block at all *)

(** Claim C7: on a text without a fenced block of the kind,
    [extract_markdown_block] and [extract_text_block] return the empty
    string (they are total: no input makes them raise), and
    [extract_json_block] raises ValueError("No valid JSON block found in
    the input."). *)
Theorem C7_no_block_of_the_kind (text : str) :
  (~ has_fenced_block $"markdown" text -> extract_markdown_block text = [])
  /\ (~ has_fenced_block $"text" text -> extract_text_block text = [])
  /\ (~ has_fenced_block $"json" text ->
        extract_json_block text = Raise (ValueError NO_JSON_BLOCK)).
Proof.
  repeat split; intros H.
  - unfold extract_markdown_block.
    destruct (re_search MARKDOWN_PATTERN text) as [m|] eqn:E; [|reflexivity].
    exfalso. apply H. exact (@fenced_match_has_block $"markdown" _ _ E).
  - unfold extract_text_block.
    destruct (re_search TEXT_PATTERN text) as [m|] eqn:E; [|reflexivity].
    exfalso. apply H. exact (@fenced_match_has_block $"text" _ _ E).
  - unfold extract_json_block.
    destruct (re_search JSON_OBJECT_PATTERN text) as [m|] eqn:E;
      [|reflexivity].
    exfalso. apply H. eapply json_object_match_has_block. exact E.
Qed.

Lemma C7_no_block_witness :
  extract_markdown_block no_block_of_kind = []
  /\ extract_text_block no_block_of_kind = []
  /\ extract_json_block no_block_of_kind = Raise (ValueError NO_JSON_BLOCK).
Proof.
  destruct (C7_no_block_of_the_kind no_block_of_kind) as (H1 & H2 & H3).
  split; [apply H1|split; [apply H2|apply H3]]; intros H;
    apply has_fenced_block_contains in H; vm_compute in H; discriminate H.
Defined.

(** Claim C8: on a text without a JSON-fenced block,
    [extract_changes_made_block] returns the pair (False, []) and does not
    raise. *)
Theorem C8_changes_made_without_block (text : str) :
  ~ has_fenced_block $"json" text ->
  extract_changes_made_block text = Return (false, JArray []).
Proof.
  intros H. unfold extract_changes_made_block.
  destruct (re_search JSON_BLOCK_PATTERN text) as [m|] eqn:E.
  - exfalso. apply H. exact (@fenced_match_has_block $"json" _ _ E).
  - now rewrite (re_findall_nil _ _ E).
Qed.

Lemma C8_changes_made_witness :
  extract_changes_made_block no_block_of_kind = Return (false, JArray []).
Proof.
  apply C8_changes_made_without_block. intros H.
  apply has_fenced_block_contains in H. vm_compute in H. discriminate H.
Defined.

(** ** The decoder *)

Lemma skip_ws_length (s : str) : length (skip_ws s) <= length s.
Proof.
  induction s as [|c s IH]; simpl; [lia|].
  destruct (ws c); simpl; lia.
Qed.

Ltac break_match_hyp H :=
  match type of H with
  | context [match ?x with _ => _ end] => destruct x eqn:?
  end.

Lemma scanstring_shorter : forall n start s t rest,
  length s <= n ->
  scanstring start s = Ok (t, rest) -> length rest < length s.
Proof.
  induction n as [|n IH]; intros start s t rest Hn H.
  - destruct s; [discriminate|simpl in Hn; lia].
  - destruct s as [|c s]; [discriminate|].
    cbn [scanstring] in H. unfold bind in H.
    repeat (break_match_hyp H; try discriminate);
      inversion H; subst; cbn [length] in *; try lia;
      match goal with
      | E : scanstring _ ?x = Ok (_, _) |- _ =>
          apply IH in E; cbn [length] in *; lia
      end.
Qed.

Lemma digits_length (s d r : str) :
  digits s = (d, r) -> length r <= length s.
Proof.
  revert d r; induction s as [|c s IH]; intros d r; simpl.
  - intros H; inversion H; simpl; lia.
  - destruct (is_digit c).
    + destruct (digits s) as [d' r']. intros H; inversion H; subst.
      specialize (IH d' r eq_refl). lia.
    + intros H; inversion H; simpl; lia.
Qed.

Lemma integer_part_shorter (s d r : str) :
  integer_part s = Some (d, r) -> length r < length s.
Proof.
  destruct s as [|c s]; simpl; [discriminate|].
  destruct (c =? 48)%N.
  - intros H; inversion H; subst; lia.
  - destruct (is_digit c); [|discriminate].
    destruct (digits s) as [d' r'] eqn:E. intros H; inversion H; subst.
    apply digits_length in E. lia.
Qed.

Lemma fraction_part_length (s f r : str) :
  fraction_part s = (f, r) -> length r <= length s.
Proof.
  destruct s as [|c s]; cbn [fraction_part].
  - intros H; inversion H; simpl; lia.
  - destruct (c =? 46)%N.
    + destruct (digits s) as [d' r'] eqn:E. apply digits_length in E.
      destruct d'; intros H; inversion H; subst; cbn [length]; lia.
    + intros H; inversion H; simpl; lia.
Qed.

Ltac length_facts :=
  repeat match goal with
  | E : digits _ = (_, _) |- _ => apply digits_length in E
  end.

Lemma exponent_part_length (s e r : str) :
  exponent_part s = (e, r) -> length r <= length s.
Proof.
  destruct s as [|c s]; cbn [exponent_part].
  - intros H; inversion H; simpl; lia.
  - destruct ((c =? 101) || (c =? 69))%N;
      [|intros H; inversion H; simpl; lia].
    destruct s as [|x t].
    + cbn [digits]. intros H; inversion H; simpl; lia.
    + destruct ((x =? 45) || (x =? 43))%N.
      * destruct (digits t) as [d' r'] eqn:E. length_facts.
        destruct d'; intros H; inversion H; subst; cbn [length]; lia.
      * destruct (digits (x :: t)) as [d' r'] eqn:E. length_facts.
        destruct d'; intros H; inversion H; subst; cbn [length] in *; lia.
Qed.

Lemma scan_number_shorter (s : str) (v : json) (r : str) :
  scan_number s = Some (v, r) -> length r < length s.
Proof.
  unfold scan_number.
  destruct (match s with
            | c :: t => if (c =? MINUS)%N then ([c], t) else ([], s)
            | [] => ([], s)
            end) as [sign s1] eqn:Es.
  assert (L : length s1 <= length s).
  { destruct s as [|c t]; [inversion Es; simpl; lia|].
    destruct (c =? MINUS)%N; inversion Es; simpl; lia. }
  clear Es.
  destruct (integer_part s1) as [[int s2]|] eqn:Ei; [|discriminate].
  apply integer_part_shorter in Ei.
  destruct (fraction_part s2) as [frac s3] eqn:Ef.
  apply fraction_part_length in Ef.
  destruct (exponent_part s3) as [exp s4] eqn:Ee.
  apply exponent_part_length in Ee.
  destruct frac, exp; intros H; inversion H; subst; lia.
Qed.

Lemma scan_constant_shorter (s : str) (v : json) (r : str) :
  scan_constant s = Some (v, r) -> length r < length s.
Proof.
  unfold scan_constant.
  repeat match goal with
  | |- context [strip_prefix ?p s] =>
      let E := fresh "E" in
      destruct (strip_prefix p s) eqn:E;
      [apply strip_prefix_Some in E; intros H; inversion H; subst;
       rewrite length_app; simpl; lia|]
  end.
  discriminate.
Qed.

(** Whatever the scanner reads, it reads at least one character. *)
Lemma scan_progress (fuel : nat) :
  (forall s v rest, scan_once fuel s = Ok (v, rest) ->
     length rest < length s)
  /\ (forall s vs rest, array_items fuel s = Ok (vs, rest) ->
        length rest < length s)
  /\ (forall s ps rest, object_items fuel s = Ok (ps, rest) ->
        length rest < length s).
Proof.
  induction fuel as [|f (IHs & IHa & IHo)];
    [repeat split; intros; discriminate|].
  split; [|split].
  - intros s v rest H. cbn [scan_once] in H.
    destruct s as [|c s']; [discriminate|].
    destruct (c =? QUOTE)%N.
    { unfold bind in H.
      destruct (scanstring (length (c :: s')) s') as [[t r]| |] eqn:E;
        try discriminate.
      inversion H; subst.
      apply scanstring_shorter with (n := length s') in E; [|lia]. simpl; lia. }
    destruct (c =? LBRACE)%N.
    { pose proof (skip_ws_length s') as L.
      destruct (skip_ws s') as [|d r]; [discriminate|].
      destruct (d =? RBRACE)%N.
      { inversion H; subst. simpl in *; lia. }
      destruct (d =? QUOTE)%N; [|discriminate].
      unfold bind in H.
      destruct (object_items f r) as [[ps r']| |] eqn:E; try discriminate.
      inversion H; subst. apply IHo in E. simpl in *; lia. }
    destruct (c =? LBRACKET)%N.
    { pose proof (skip_ws_length s') as L.
      destruct (skip_ws s') as [|d r]; [discriminate|].
      destruct (d =? RBRACKET)%N.
      { inversion H; subst. simpl in *; lia. }
      unfold bind in H.
      destruct (array_items f (d :: r)) as [[vs r']| |] eqn:E;
        try discriminate.
      inversion H; subst. apply IHa in E. simpl in *; lia. }
    destruct (scan_constant (c :: s')) as [[v' r']|] eqn:Ec.
    { inversion H; subst. now apply scan_constant_shorter in Ec. }
    destruct (scan_number (c :: s')) as [[v' r']|] eqn:En; [|discriminate].
    inversion H; subst. now apply scan_number_shorter in En.
  - intros s vs rest H. cbn [array_items] in H. unfold bind in H.
    destruct (scan_once f s) as [[v r1]| |] eqn:E; try discriminate.
    apply IHs in E. pose proof (skip_ws_length r1) as L1.
    destruct (skip_ws r1) as [|d r2]; [discriminate|].
    destruct (d =? RBRACKET)%N.
    { inversion H; subst. simpl in *; lia. }
    destruct (d =? COMMA)%N; [|discriminate].
    destruct (array_items f (skip_ws r2)) as [[vs' r']| |] eqn:E2;
      try discriminate.
    inversion H; subst. apply IHa in E2.
    pose proof (skip_ws_length r2). simpl in *; lia.
  - intros s ps rest H. cbn [object_items] in H. unfold bind in H.
    destruct (scanstring (S (length s)) s) as [[key r1]| |] eqn:E;
      try discriminate.
    apply scanstring_shorter with (n := length s) in E; [|lia].
    pose proof (skip_ws_length r1) as L1.
    destruct (skip_ws r1) as [|c r2]; [discriminate|].
    destruct (c =? COLON)%N; [|discriminate].
    destruct (scan_once f (skip_ws r2)) as [[v r3]| |] eqn:E2;
      try discriminate.
    apply IHs in E2. pose proof (skip_ws_length r2) as L2.
    pose proof (skip_ws_length r3) as L3.
    destruct (skip_ws r3) as [|d r4]; [discriminate|].
    destruct (d =? RBRACE)%N.
    { inversion H; subst. simpl in *; lia. }
    destruct (d =? COMMA)%N; [|discriminate].
    pose proof (skip_ws_length r4) as L4.
    destruct (skip_ws r4) as [|q r5]; [discriminate|].
    destruct (q =? QUOTE)%N; [|discriminate].
    destruct (object_items f r5) as [[ps' r']| |] eqn:E3; try discriminate.
    inversion H; subst. apply IHo in E3. simpl in *; lia.
Qed.

Lemma scanstring_not_starved (start : nat) (s : str) :
  scanstring start s <> Starved.
Proof.
  remember (length s) as n eqn:Hn.
  assert (Hle : length s <= n) by lia. clear Hn.
  revert start s Hle. induction n as [|n IH]; intros start s Hle.
  - destruct s; [discriminate|simpl in Hle; lia].
  - destruct s as [|c s]; [discriminate|].
    cbn [scanstring]. unfold bind. intros H.
    repeat (break_match_hyp H; try discriminate);
      match goal with
      | E : scanstring _ ?x = Starved |- _ =>
          apply IH in E; [assumption|cbn [length] in *; lia]
      end.
Qed.

(** The budget of [json_loads] is never used up. *)
Lemma scan_not_starved (fuel : nat) :
  (forall s, 2 * length s + 1 <= fuel -> scan_once fuel s <> Starved)
  /\ (forall s, 2 * length s + 2 <= fuel -> array_items fuel s <> Starved)
  /\ (forall s, 2 * length s + 2 <= fuel -> object_items fuel s <> Starved).
Proof.
  induction fuel as [|f (IHs & IHa & IHo)];
    [repeat split; intros; lia|].
  destruct (scan_progress f) as (Ps & Pa & Po).
  split; [|split].
  - intros s Hf H. cbn [scan_once] in H.
    destruct s as [|c s']; [discriminate|]. cbn [length] in Hf.
    destruct (c =? QUOTE)%N.
    { unfold bind in H.
      destruct (scanstring (length (c :: s')) s') as [[t r]| |] eqn:E;
        try discriminate.
      now apply scanstring_not_starved in E. }
    destruct (c =? LBRACE)%N.
    { pose proof (skip_ws_length s') as L.
      destruct (skip_ws s') as [|d r]; [discriminate|].
      destruct (d =? RBRACE)%N; [discriminate|].
      destruct (d =? QUOTE)%N; [|discriminate].
      unfold bind in H.
      destruct (object_items f r) as [[ps r']| |] eqn:E; try discriminate.
      apply IHo in E; [assumption|]. simpl in L. lia. }
    destruct (c =? LBRACKET)%N.
    { pose proof (skip_ws_length s') as L.
      destruct (skip_ws s') as [|d r]; [discriminate|].
      destruct (d =? RBRACKET)%N; [discriminate|].
      unfold bind in H.
      destruct (array_items f (d :: r)) as [[vs r']| |] eqn:E;
        try discriminate.
      apply IHa in E; [assumption|]. simpl in *. lia. }
    destruct (scan_constant (c :: s')) as [[v' r']|]; [discriminate|].
    destruct (scan_number (c :: s')) as [[v' r']|]; discriminate.
  - intros s Hf H. cbn [array_items] in H. unfold bind in H.
    destruct (scan_once f s) as [[v r1]| |] eqn:E; try discriminate.
    + apply Ps in E. pose proof (skip_ws_length r1) as L1.
      destruct (skip_ws r1) as [|d r2]; [discriminate|].
      destruct (d =? RBRACKET)%N; [discriminate|].
      destruct (d =? COMMA)%N; [|discriminate].
      destruct (array_items f (skip_ws r2)) as [[vs' r']| |] eqn:E2;
        try discriminate.
      apply IHa in E2; [assumption|].
      pose proof (skip_ws_length r2). simpl in *. lia.
    + apply IHs in E; [assumption|lia].
  - intros s Hf H. cbn [object_items] in H. unfold bind in H.
    destruct (scanstring (S (length s)) s) as [[key r1]| |] eqn:E;
      try discriminate.
    2:{ now apply scanstring_not_starved in E. }
    apply scanstring_shorter with (n := length s) in E; [|lia].
    pose proof (skip_ws_length r1) as L1.
    destruct (skip_ws r1) as [|c r2]; [discriminate|].
    destruct (c =? COLON)%N; [|discriminate].
    pose proof (skip_ws_length r2) as L2.
    destruct (scan_once f (skip_ws r2)) as [[v r3]| |] eqn:E2;
      try discriminate.
    2:{ apply IHs in E2; [assumption|]. simpl in *. lia. }
    apply Ps in E2.
    pose proof (skip_ws_length r3) as L3.
    destruct (skip_ws r3) as [|d r4]; [discriminate|].
    destruct (d =? RBRACE)%N; [discriminate|].
    destruct (d =? COMMA)%N; [|discriminate].
    pose proof (skip_ws_length r4) as L4.
    destruct (skip_ws r4) as [|q r5]; [discriminate|].
    destruct (q =? QUOTE)%N; [|discriminate].
    destruct (object_items f r5) as [[ps' r']| |] eqn:E3; try discriminate.
    apply IHo in E3; [assumption|]. simpl in *. lia.
Qed.

(** [json.loads] always comes to a result. *)
Theorem json_loads_finishes (doc : str) : json_loads doc <> Unfinished.
Proof.
  unfold json_loads. destruct (startswith [BOM] doc); [discriminate|].
  destruct (scan_once (2 * length doc + 1) (skip_ws doc))
    as [[v rest]| |] eqn:E.
  - now destruct (skip_ws rest).
  - discriminate.
  - exfalso. destruct (scan_not_starved (2 * length doc + 1)) as (Hs & _).
    apply (Hs (skip_ws doc)); [|assumption].
    pose proof (skip_ws_length doc). lia.
Qed.

(** A value that starts with an opening brace is an object. *)
Lemma scan_once_object_head (fuel : nat) (s : str) (v : json) (rest : str) :
  scan_once fuel (LBRACE :: s) = Ok (v, rest) -> is_object v.
Proof.
  destruct fuel as [|f]; [discriminate|]. cbn [scan_once].
  change (LBRACE =? QUOTE)%N with false.
  change (LBRACE =? LBRACE)%N with true. cbv iota.
  destruct (skip_ws s) as [|d r]; [discriminate|].
  destruct (d =? RBRACE)%N; [intros H; now inversion H|].
  destruct (d =? QUOTE)%N; [|discriminate].
  unfold bind. destruct (object_items f r) as [[ps r']| |]; try discriminate.
  intros H; now inversion H.
Qed.

(** No value starts with whitespace that is not the decoder's own. *)
Lemma scan_once_foreign_space (fuel : nat) (c : char) (s : str)
  (v : json) (rest : str) :
  isspace c = true -> ws c = false ->
  scan_once fuel (c :: s) <> Ok (v, rest).
Proof.
  intros Hsp Hws. destruct fuel as [|f]; [discriminate|]. cbn [scan_once].
  assert (Hc : forall k, isspace k = false -> (c =? k)%N = false).
  { intros k Hk. destruct (N.eqb_spec c k); [congruence|reflexivity]. }
  rewrite !Hc by reflexivity.
  assert (Hk : forall k, isspace k = false -> (k =? c)%N = false).
  { intros k Hk. rewrite N.eqb_sym. now apply Hc. }
  assert (Ec : scan_constant (c :: s) = None).
  { unfold scan_constant.
    change $"null" with (110 :: $"ull")%N.
    change $"true" with (116 :: $"rue")%N.
    change $"false" with (102 :: $"alse")%N.
    change $"NaN" with (78 :: $"aN")%N.
    change $"Infinity" with (73 :: $"nfinity")%N.
    change $"-Infinity" with (45 :: $"Infinity")%N.
    cbn [strip_prefix]. now rewrite !Hk by reflexivity. }
  assert (En : scan_number (c :: s) = None).
  { unfold scan_number. unfold MINUS. rewrite Hc by reflexivity.
    cbn [integer_part]. rewrite Hc by reflexivity.
    destruct (is_digit c) eqn:D; [|reflexivity].
    exfalso. unfold is_digit in D. unfold isspace in Hsp.
    repeat rewrite ?orb_true_iff, ?andb_true_iff, ?N.leb_le, ?N.eqb_eq
      in *. lia. }
  rewrite Ec, En. discriminate.
Qed.

Lemma skip_ws_space_prefix (sp t : str) :
  Forall (fun c => isspace c = true) sp ->
  skip_ws (sp ++ LBRACE :: t) = LBRACE :: t
  \/ exists c r, skip_ws (sp ++ LBRACE :: t) = c :: r
                 /\ isspace c = true /\ ws c = false.
Proof.
  induction 1 as [|c sp Hc Hsp IH]; cbn [app skip_ws].
  - left. reflexivity.
  - destruct (ws c) eqn:W; [exact IH|].
    right. exists c, (sp ++ LBRACE :: t). auto.
Qed.

(** What [json.loads] decodes from whitespace and an opening brace is an
    object. *)
Lemma json_loads_object_head (sp t : str) (v : json) :
  Forall (fun c => isspace c = true) sp ->
  json_loads (sp ++ LBRACE :: t) = Decoded v -> is_object v.
Proof.
  intros Hsp. unfold json_loads.
  destruct (startswith [BOM] (sp ++ LBRACE :: t)); [discriminate|].
  destruct (scan_once _ (skip_ws (sp ++ LBRACE :: t)))
    as [[v' rest]| |] eqn:E; try discriminate.
  destruct (skip_ws rest); [|discriminate].
  intros H; inversion H; subst v'.
  destruct (skip_ws_space_prefix t Hsp) as [S|(c & r & S & Hc & Hw)];
    rewrite S in E.
  - now apply scan_once_object_head in E.
  - now apply scan_once_foreign_space in E.
Qed.

Lemma strip_prefix_fence_head (c : char) (s : str) :
  c <> 96%N -> strip_prefix FENCE (c :: s) = None.
Proof.
  intros Hc. change FENCE with [96; 96; 96]%N. cbn [strip_prefix].
  destruct (N.eqb_spec 96 c); [congruence|reflexivity].
Qed.

(** The first fence after characters that are no backticks comes after
    them. *)
Lemma find_sub_fence_after (x t body post : str) :
  Forall (fun c => c <> 96%N) x ->
  find_sub FENCE (x ++ t) = Some (body, post) ->
  exists b, body = x ++ b.
Proof.
  intros Hx; revert body; induction Hx as [|c x Hc Hx IH]; intros body.
  - intros _. now exists body.
  - cbn [app find_sub]. rewrite (strip_prefix_fence_head _ Hc). cbv iota.
    match goal with
    | |- context [find_sub FENCE ?y] =>
        destruct (find_sub FENCE y) as [[b' p']|] eqn:F
    end; [|discriminate].
    intros H; inversion H; subst.
    destruct (IH b' eq_refl) as (b & ->). now exists b.
Qed.

Lemma splits_at_complete (p a r : str) :
  In (a, r) (splits_at p (a ++ p ++ r)).
Proof.
  induction a as [|c a IH]; cbn [app].
  - destruct (p ++ r) as [|x t] eqn:E; cbn [splits_at];
      rewrite <- E, strip_prefix_app; now left.
  - cbn [splits_at]. apply in_or_app. right.
    apply (in_map (fun ar => (c :: fst ar, snd ar)) _ _ IH).
Qed.

Lemma isspace_not_backtick (sp : str) :
  Forall (fun c => isspace c = true) sp -> Forall (fun c => c <> 96%N) sp.
Proof.
  intros H. eapply Forall_impl; [|exact H].
  intros c Hc ->. discriminate Hc.
Qed.

(** ** Blocks that hold no object *)

(** Claim C10: [extract_json_block] only recognises a block whose body
    starts with an opening brace and ends with a closing one; when every
    JSON-fenced block of the text holds a JSON value that is not an
    object, it raises ValueError("No valid JSON block found in the
    input."), the error of a missing block, and not the error of invalid
    JSON. *)
Theorem C10_non_object_blocks_are_not_found (text : str) :
  (forall m, re_search JSON_OBJECT_PATTERN text = Some m ->
     exists b, group_or_empty m 1 = LBRACE :: b ++ [RBRACE])
  /\ ((forall body, fenced_block $"json" text body ->
         exists v, json_loads body = Decoded v /\ ~ is_object v) ->
      extract_json_block text = Raise (ValueError NO_JSON_BLOCK)).
Proof.
  split.
  - intros m H.
    apply re_search_json_object_Some in H
      as (pre & sp1 & b & sp2 & post & _ & _ & _ & Hg).
    now exists b.
  - intros Hall. unfold extract_json_block.
    destruct (re_search JSON_OBJECT_PATTERN text) as [m|] eqn:E;
      [exfalso|reflexivity].
    apply re_search_json_object_Some in E
      as (pre & sp1 & b & sp2 & post & -> & Hsp1 & _ & _).
    set (rest := sp1 ++ LBRACE :: b ++ RBRACE :: sp2 ++ FENCE ++ post).
    destruct (@find_sub_exists FENCE rest
                (sp1 ++ LBRACE :: b ++ RBRACE :: sp2) post)
      as (body & post' & F).
    { unfold rest. rewrite <- !app_assoc. cbn [app].
      now rewrite <- !app_assoc. }
    destruct (Hall body) as (v & Hv & Hobj).
    { exists pre, rest, post'. split; [reflexivity|assumption]. }
    apply Hobj.
    assert (Hx : Forall (fun c => c <> 96%N) (sp1 ++ [LBRACE])).
    { apply Forall_app. split; [now apply isspace_not_backtick|].
      constructor; [discriminate|constructor]. }
    assert (Hrest : rest
                    = (sp1 ++ [LBRACE]) ++ b ++ RBRACE :: sp2 ++ FENCE ++ post).
    { unfold rest. now rewrite <- app_assoc. }
    rewrite Hrest in F.
    destruct (find_sub_fence_after _ Hx F) as (b1 & ->).
    rewrite <- app_assoc in Hv. cbn [app] in Hv.
    exact (json_loads_object_head _ Hsp1 Hv).
Qed.

Lemma C10_non_object_witness :
  extract_json_block json_array_block = Raise (ValueError NO_JSON_BLOCK).
Proof.
  apply (C10_non_object_blocks_are_not_found json_array_block).
  intros body (pre & rest & post & Ht & F).
  pose proof (splits_at_complete (FENCE ++ $"json") pre rest) as Hin.
  rewrite <- Ht in Hin. vm_compute in Hin.
  destruct Hin as [Hin|[]]. inversion Hin; subst.
  vm_compute in F. inversion F; subst.
  exists (JArray [JInt 1; JInt 2]). split; [reflexivity|].
  intros Hobj. exact Hobj.
Defined.

(** ** Witnesses for the claims on malformed blocks *)



(** ** The remote URL *)

Lemma take_drop_while (p : char -> bool) (s : str) :
  s = take_while p s ++ drop_while p s.
Proof.
  induction s as [|c s IH]; simpl; [reflexivity|].
  destruct (p c); simpl; [now rewrite <- IH|reflexivity].
Qed.

Lemma take_while_all (p : char -> bool) (s : str) :
  Forall (fun c => p c = true) (take_while p s).
Proof.
  induction s as [|c s IH]; simpl; [constructor|].
  destruct (p c) eqn:E; now constructor.
Qed.

Lemma drop_while_all (p : char -> bool) (a s : str) (x : char) :
  Forall (fun c => p c = true) a -> p x = false ->
  drop_while p (a ++ x :: s) = x :: s.
Proof.
  intros Ha Hx. induction Ha as [|c a Hc Ha IH]; simpl.
  - now rewrite Hx.
  - now rewrite Hc.
Qed.

Section GreedyFacts.
Variable A : Type.

(** When what follows cannot start inside the class, only the whole run
    is left. *)
Lemma greedy_class_inside (p : char -> bool) (k : str -> option A) (s : str) :
  (forall c t, p c = true -> k (c :: t) = None) ->
  greedy_class p k s = k (drop_while p s).
Proof.
  intros Hk; induction s as [|c s IH]; simpl; [reflexivity|].
  destruct (p c) eqn:E; [|reflexivity].
  rewrite IH, (Hk c s E). now rewrite orelse_None_r.
Qed.

(** When what follows always succeeds, the whole run is taken. *)
Lemma greedy_class_total (p : char -> bool) (k : str -> option A) (s : str) :
  (forall t, k t <> None) ->
  greedy_class p k s = k (drop_while p s).
Proof.
  intros Hk; induction s as [|c s IH]; simpl; [reflexivity|].
  destruct (p c) eqn:E; [|reflexivity].
  rewrite IH. specialize (Hk (drop_while p s)).
  now destruct (k (drop_while p s)).
Qed.
End GreedyFacts.

Lemma run_Class (A : Type) p s g (k : cont A) :
  run (Class p) s g k
  = match s with
    | c :: s' => if p c then k s' g else None
    | [] => None
    end.
Proof. reflexivity. Qed.

Lemma run_Eps (A : Type) s g (k : cont A) : run Eps s g k = k s g.
Proof. reflexivity. Qed.

(** The pattern after the prefix: an owner, a slash, a repository. *)
Lemma run_url_tail (s1 : str) :
  (exists g rest,
     run URL_TAIL s1 [] (fun s' g => Some (g, s')) = Some (g, rest))
  <-> url_tail_ok s1 = true.
Proof.
  unfold URL_TAIL, url_tail_ok, Plus.
  rewrite run_Cat, run_Group, run_Cat, run_Class.
  destruct s1 as [|c t].
  { split; [intros (g & rest & H); discriminate|discriminate]. }
  change (noneof 47%N) with (noneof SLASH).
  destruct (noneof SLASH c).
  2:{ split; [intros (g & rest & H); discriminate|discriminate]. }
  rewrite run_Star, (iter_greedy_class (noneof SLASH)) by lia.
  rewrite greedy_class_inside.
  2:{ intros c' t' Hc'. rewrite run_Cat, run_Lit.
      change $"/" with [SLASH]. cbn [strip_prefix].
      unfold noneof in Hc'. rewrite N.eqb_sym.
      now destruct (c' =? SLASH)%N. }
  rewrite run_Cat, run_Lit. change $"/" with [SLASH].
  destruct (drop_while (noneof SLASH) t) as [|x s2].
  { split; [intros (g & rest & H); discriminate|discriminate]. }
  cbn [strip_prefix andb]. rewrite N.eqb_sym.
  destruct (x =? SLASH)%N.
  2:{ split; [intros (g & rest & H); discriminate|].
      now destruct s2. }
  rewrite run_Cat, run_Group, run_Cat, run_Class.
  destruct s2 as [|d t2].
  { split; [intros (g & rest & H); discriminate|discriminate]. }
  change (noneof 46%N) with (noneof DOT).
  destruct (noneof DOT d).
  2:{ split; [intros (g & rest & H); discriminate|discriminate]. }
  rewrite run_Star, (iter_greedy_class (noneof DOT)) by lia.
  rewrite greedy_class_total.
  2:{ intros w. unfold Opt. rewrite run_Alt, run_Group, run_Lit, run_Eps.
      destruct (strip_prefix $".git" w); discriminate. }
  split; [reflexivity|intros _].
  unfold Opt. rewrite run_Alt, run_Group, run_Lit, run_Eps.
  destruct (strip_prefix $".git" (drop_while (noneof DOT) t2));
    cbn [orelse]; eauto.
Qed.

Lemma strip_prefix_https_not_ssh (url s1 : str) :
  strip_prefix HTTPS_PREFIX url = Some s1 ->
  strip_prefix SSH_PREFIX url = None.
Proof.
  intros H. apply strip_prefix_Some in H. subst url. reflexivity.
Qed.

(** Whether the URL pattern matches a string at its start. *)
Lemma match_at_github_url (url : str) :
  (exists g rest, match_at GITHUB_URL_PATTERN false url = Some (g, rest))
  <-> github_formb url = true.
Proof.
  unfold match_at, GITHUB_URL_PATTERN.
  change (Cat (Group 1 (Plus true (Class (noneof 47%N))))
           (Cat (Lit $"/")
             (Cat (Group 2 (Plus true (Class (noneof 46%N))))
                  (Opt (Group 3 (Lit $".git")))))) with URL_TAIL.
  rewrite run_Cat, run_Alt, !run_Lit.
  change $"https://github.com/" with HTTPS_PREFIX.
  change $"git@github.com:" with SSH_PREFIX.
  unfold github_formb.
  destruct (strip_prefix HTTPS_PREFIX url) as [s1|] eqn:Eh.
  - rewrite (strip_prefix_https_not_ssh _ Eh), orelse_None_r.
    cbn [andb]. exact (run_url_tail s1).
  - cbn [orelse].
    destruct (strip_prefix SSH_PREFIX url) as [s1|] eqn:Es.
    + exact (run_url_tail s1).
    + split; [intros (g & rest & H); discriminate|discriminate].
Qed.

Lemma noneof_true (x c : char) : noneof x c = true <-> c <> x.
Proof.
  unfold noneof. destruct (N.eqb_spec c x); cbn [negb]; split.
  - discriminate.
  - intros H. contradiction.
  - intros _. assumption.
  - reflexivity.
Qed.

Lemma all_noneof_not_In (x : char) (s : str) :
  Forall (fun c => noneof x c = true) s <-> ~ In x s.
Proof.
  rewrite Forall_forall. split.
  - intros H Hin. apply H in Hin. apply noneof_true in Hin. congruence.
  - intros H c Hc. apply noneof_true. intros ->. contradiction.
Qed.

(** The decision of the GitHub forms is right. *)
Lemma github_formb_spec (url : str) :
  github_formb url = true <-> github_form url.
Proof.
  unfold github_formb, github_form. split.
  - intros H.
    assert (P : exists prefix s1,
      (prefix = HTTPS_PREFIX \/ prefix = SSH_PREFIX)
      /\ url = prefix ++ s1 /\ url_tail_ok s1 = true).
    { destruct (strip_prefix HTTPS_PREFIX url) as [s1|] eqn:Eh.
      - apply strip_prefix_Some in Eh. exists HTTPS_PREFIX, s1.
        repeat split; auto.
      - destruct (strip_prefix SSH_PREFIX url) as [s1|] eqn:Es;
          [|discriminate].
        apply strip_prefix_Some in Es. exists SSH_PREFIX, s1.
        repeat split; auto. }
    destruct P as (prefix & s1 & Hp & -> & Hok). clear H.
    destruct s1 as [|c t]; [discriminate|]. cbn [url_tail_ok] in Hok.
    apply andb_true_iff in Hok as [Hc Hok].
    pose proof (take_drop_while (noneof SLASH) t) as Ht.
    destruct (drop_while (noneof SLASH) t) as [|x [|d rest]];
      try discriminate.
    apply andb_true_iff in Hok as [Hx Hd]. apply N.eqb_eq in Hx. subst x.
    exists prefix, (c :: take_while (noneof SLASH) t), [d], rest.
    repeat split; try assumption; try discriminate.
    + cbn [app]. now rewrite Ht at 1.
    + apply all_noneof_not_In. constructor; [assumption|].
      apply take_while_all.
    + apply all_noneof_not_In. constructor; [assumption|constructor].
  - intros (prefix & owner & repo & rest & Hp & -> & Ho & Hs & Hr & Hd).
    assert (Hok : url_tail_ok (owner ++ [SLASH] ++ repo ++ rest) = true).
    { destruct owner as [|c o]; [congruence|].
      destruct repo as [|d r]; [congruence|].
      apply all_noneof_not_In in Hs. apply all_noneof_not_In in Hd.
      inversion Hs; subst. inversion Hd; subst.
      cbn [url_tail_ok app]. rewrite drop_while_all by easy.
      rewrite N.eqb_refl. now apply andb_true_iff. }
    destruct Hp as [-> | ->].
    + rewrite strip_prefix_app.
      destruct (owner ++ [SLASH] ++ repo ++ rest); [discriminate|].
      exact Hok.
    + change (strip_prefix HTTPS_PREFIX
                (SSH_PREFIX ++ owner ++ [SLASH] ++ repo ++ rest))
        with (@None str).
      rewrite strip_prefix_app.
      destruct (owner ++ [SLASH] ++ repo ++ rest); [discriminate|].
      exact Hok.
Qed.

(** The pattern matches exactly the GitHub forms. *)
Lemma re_match_github_url (url : str) :
  re_match GITHUB_URL_PATTERN url = None <-> ~ github_form url.
Proof.
  rewrite <- github_formb_spec, <- match_at_github_url. unfold re_match.
  destruct (match_at GITHUB_URL_PATTERN false url) as [[g rest]|].
  - split; [discriminate|]. intros H. exfalso. apply H. eauto.
  - split; [|reflexivity]. intros _ (g & rest & H). discriminate.
Qed.

(** Claim C6: the SSH and the HTTPS example of the specification give
    the owner "acme" and the repository "widgets", and every URL that has
    neither GitHub form gives (None, None). *)
Theorem C6_remote_url_parsing :
  fst (get_owner_and_repo_from_git_config
         (OriginUrl $"git@github.com:acme/widgets.git"))
  = (Some $"acme", Some $"widgets")
  /\ fst (get_owner_and_repo_from_git_config
            (OriginUrl $"https://github.com/acme/widgets"))
     = (Some $"acme", Some $"widgets")
  /\ (forall url, ~ github_form url ->
        fst (get_owner_and_repo_from_git_config (OriginUrl url))
        = (None, None)).
Proof.
  split; [reflexivity|]. split; [reflexivity|].
  intros url H. apply re_match_github_url in H.
  cbn [get_owner_and_repo_from_git_config]. now rewrite H.
Qed.

Lemma C6_other_host_witness :
  fst (get_owner_and_repo_from_git_config
         (OriginUrl $"https://gitlab.com/acme/widgets"))
  = (None, None).
Proof.
  apply (proj2 (proj2 C6_remote_url_parsing)).
  intros H. apply github_formb_spec in H. vm_compute in H. discriminate H.
Defined.

(** A URL of a GitHub form is parsed: nothing is reported. *)
Lemma github_form_is_parsed (url : str) :
  github_form url <->
  snd (get_owner_and_repo_from_git_config (OriginUrl url)) = [].
Proof.
  cbn [get_owner_and_repo_from_git_config].
  destruct (re_match GITHUB_URL_PATTERN url) as [m|] eqn:E; cbn [snd].
  - split; [reflexivity|]. intros _.
    destruct (github_formb url) eqn:B.
    + now apply github_formb_spec.
    + exfalso. assert (N : ~ github_form url).
      { intros F. apply github_formb_spec in F. congruence. }
      apply re_match_github_url in N. congruence.
  - split; [|discriminate]. intros F.
    apply re_match_github_url in E. contradiction.
Qed.

(** ** The round trip of a verdict object *)





(** ** The budget of [re.findall] *)

Lemma match_at_rest (r : regex) (ma : bool) (s : str) (g : groups)
  (rest : str) :
  match_at r ma s = Some (g, rest) ->
  length rest <= length s /\ (ma = true -> length rest < length s).
Proof.
  unfold match_at. intros H.
  apply run_suffix in H as (s' & g' & L & H).
  destruct ma; cbn [andb] in H.
  - destruct (Nat.eqb_spec (length s') (length s)); [discriminate|].
    inversion H; subst. split; [assumption|]. intros _. lia.
  - inversion H; subst. split; [assumption|discriminate].
Qed.

Lemma search_from_eq (r : regex) (ma : bool) (pos : nat) (s : str) :
  search_from r ma pos s
  = match match_at r ma s with
    | Some (g, rest) =>
        Some {| m_start := pos; m_end := pos + (length s - length rest);
                m_groups := g |}
    | None =>
        match s with
        | _ :: s' => search_from r false (S pos) s'
        | [] => None
        end
    end.
Proof. now destruct s. Qed.

Lemma search_from_bounds (r : regex) (s : str) : forall ma pos m,
  search_from r ma pos s = Some m ->
  pos <= m_start m /\ m_start m <= m_end m /\ m_end m <= pos + length s
  /\ (ma = true -> m_end m = m_start m -> pos < m_start m).
Proof.
  induction s as [|c s IH]; intros ma pos m; rewrite search_from_eq;
    destruct (match_at r ma _) as [[g rest]|] eqn:E; try discriminate.
  - apply match_at_rest in E as [L1 L2].
    remember (length (@nil char) - length rest) as n eqn:Hn.
    intros H. replace m with {| m_start := pos; m_end := pos + n;
                                m_groups := g |} by congruence.
    unfold m_start, m_end. simpl in L1, L2.
    split; [|split; [|split]]; try lia.
    intros Hma _. specialize (L2 Hma). lia.
  - apply match_at_rest in E as [L1 L2].
    remember (length (c :: s) - length rest) as n eqn:Hn.
    intros H. replace m with {| m_start := pos; m_end := pos + n;
                                m_groups := g |} by congruence.
    unfold m_start, m_end.
    split; [|split; [|split]]; try lia.
    intros Hma Heq. specialize (L2 Hma). lia.
  - intros H. apply IH in H as (H1 & H2 & H3 & _).
    change (length (c :: s)) with (S (length s)).
    split; [|split; [|split]]; lia.
Qed.

(** More rounds than [re_findall] allows are never needed. *)
Lemma findall_loop_enough (r : regex) :
  forall (fuel fuel' : nat) (ma : bool) (s : str),
  2 * length s + (if ma then 0 else 1) < fuel ->
  2 * length s + (if ma then 0 else 1) < fuel' ->
  findall_loop fuel r ma s = findall_loop fuel' r ma s.
Proof.
  induction fuel as [|fuel IH]; intros fuel' ma s Hf Hf'; [lia|].
  destruct fuel' as [|fuel']; [lia|]. cbn [findall_loop].
  destruct (search_from r ma 0 s) as [m|] eqn:E; [|reflexivity].
  f_equal. apply search_from_bounds in E as (_ & H2 & H3 & H4).
  assert (L : length (skipn (m_end m) s) = length s - m_end m)
    by apply length_skipn.
  destruct (Nat.eqb_spec (m_end m) (m_start m)) as [Heq|Hne].
  - apply IH; rewrite L; destruct ma; try lia;
      specialize (H4 eq_refl Heq); lia.
  - apply IH; rewrite L; destruct ma; lia.
Qed.

Lemma re_findall_unfold (r : regex) (s : str) :
  re_findall r s
  = match re_search r s with
    | None => []
    | Some m =>
        group_or_empty m 1
          :: findall_loop (2 * length s + 1) r
               (Nat.eqb (m_end m) (m_start m)) (skipn (m_end m) s)
    end.
Proof.
  unfold re_findall, re_search.
  replace (2 * length s + 2) with (S (2 * length s + 1)) by lia.
  reflexivity.
Qed.

(** ** Every extraction comes to a result *)

Lemma extract_json_block_finishes (text : str) :
  extract_json_block text <> Diverge.
Proof.
  unfold extract_json_block.
  destruct (re_search JSON_OBJECT_PATTERN text) as [m|]; [|discriminate].
  pose proof (json_loads_finishes (group_or_empty m 1)) as F.
  destruct (json_loads (group_or_empty m 1)); try discriminate.
  now destruct F.
Qed.

Lemma extract_changes_made_block_finishes (text : str) :
  extract_changes_made_block text <> Diverge.
Proof.
  unfold extract_changes_made_block.
  destruct (Nat.eqb (length (re_findall JSON_BLOCK_PATTERN text)) 0);
    [discriminate|].
  set (block := strip (last (re_findall JSON_BLOCK_PATTERN text) [])).
  pose proof (json_loads_finishes block) as F.
  destruct (json_loads block) as [data|e|]; try discriminate.
  - unfold subscript. destruct data; try discriminate.
    now destruct (dict_get CHANGES_MADE members).
  - now destruct F.
Qed.

(** ** Trimming *)

Lemma lstrip_head (s : str) :
  match lstrip s with c :: _ => isspace c = false | [] => True end.
Proof.
  induction s as [|x s IH]; simpl; [exact I|].
  destruct (isspace x) eqn:E; [exact IH|exact E].
Qed.

Lemma lstrip_fixed (s : str) :
  match s with c :: _ => isspace c = false | [] => True end ->
  lstrip s = s.
Proof. destruct s as [|c s]; simpl; [reflexivity|]. now intros ->. Qed.

Lemma rstrip_split (s : str) :
  exists sp, s = rstrip s ++ sp /\ Forall (fun c => isspace c = true) sp.
Proof.
  unfold rstrip. destruct (lstrip_split (rev s)) as (sp & Hs & Hsp).
  exists (rev sp). split.
  - rewrite <- rev_app_distr, <- Hs. now rewrite rev_involutive.
  - now apply Forall_rev.
Qed.

(** What [strip] removes is whitespace on both sides. *)
Lemma strip_split (s : str) :
  exists sp1 sp2, s = sp1 ++ strip s ++ sp2
    /\ Forall (fun c => isspace c = true) sp1
    /\ Forall (fun c => isspace c = true) sp2.
Proof.
  destruct (lstrip_split s) as (sp1 & H1 & Hsp1).
  destruct (rstrip_split (lstrip s)) as (sp2 & H2 & Hsp2).
  exists sp1, sp2. unfold strip. rewrite <- H2. auto.
Qed.

Lemma lstrip_app_nonspace (a b : str) :
  match a with c :: _ => isspace c = false | [] => False end ->
  lstrip (a ++ b) = a ++ b.
Proof. destruct a as [|c a]; [tauto|]. simpl. now intros ->. Qed.

(** The trimmed text starts with no whitespace. *)
Lemma strip_head (s : str) :
  match strip s with c :: _ => isspace c = false | [] => True end.
Proof.
  unfold strip. pose proof (lstrip_head s) as H.
  destruct (rstrip_split (lstrip s)) as (sp & Hs & _).
  destruct (rstrip (lstrip s)) as [|c t]; [exact I|].
  rewrite Hs in H. exact H.
Qed.

(** The trimmed text ends with no whitespace. *)
Lemma strip_last (s : str) :
  match rev (strip s) with c :: _ => isspace c = false | [] => True end.
Proof.
  unfold strip, rstrip. rewrite rev_involutive. apply lstrip_head.
Qed.

Lemma rstrip_fixed (s : str) :
  match rev s with c :: _ => isspace c = false | [] => True end ->
  rstrip s = s.
Proof.
  intros H. unfold rstrip. rewrite lstrip_fixed by assumption.
  apply rev_involutive.
Qed.

(** Trimming twice is trimming once. *)
Lemma strip_idempotent (s : str) : strip (strip s) = strip s.
Proof.
  pose proof (strip_head s) as Hh. pose proof (strip_last s) as Hl.
  unfold strip at 1. rewrite (lstrip_fixed _ Hh). now apply rstrip_fixed.
Qed.

(** ** A token without whitespace at its ends, and trimming *)

Lemma occurs_after_space (p sp s : str) :
  match p with c :: _ => isspace c = false | [] => False end ->
  Forall (fun c => isspace c = true) sp ->
  (exists a b, sp ++ s = a ++ p ++ b) -> exists a b, s = a ++ p ++ b.
Proof.
  intros Hp Hsp. induction Hsp as [|x sp Hx Hsp IH]; [trivial|].
  intros (a & b & H). apply IH. destruct a as [|y a].
  - destruct p as [|c p]; [tauto|]. simpl in H. inversion H; subst.
    congruence.
  - simpl in H. inversion H; subst. now exists a, b.
Qed.

Lemma occurs_rev (p s : str) :
  (exists a b, s = a ++ p ++ b) <-> (exists a b, rev s = a ++ rev p ++ b).
Proof.
  split; intros (a & b & H).
  - exists (rev b), (rev a). rewrite H, !rev_app_distr.
    now rewrite <- app_assoc.
  - exists (rev b), (rev a). apply (f_equal (@rev char)) in H.
    rewrite rev_involutive in H. rewrite H, !rev_app_distr, rev_involutive.
    now rewrite <- app_assoc.
Qed.

Lemma occurs_before_space (p s sp : str) :
  match rev p with c :: _ => isspace c = false | [] => False end ->
  Forall (fun c => isspace c = true) sp ->
  (exists a b, s ++ sp = a ++ p ++ b) -> exists a b, s = a ++ p ++ b.
Proof.
  intros Hp Hsp H. apply occurs_rev. apply occurs_rev in H.
  rewrite rev_app_distr in H.
  eapply occurs_after_space; [exact Hp|apply Forall_rev; exact Hsp|exact H].
Qed.

(** A token that neither starts nor ends with whitespace occurs in the
    trimmed text exactly when it occurs in the text. *)
Lemma contains_strip (p s : str) :
  match p with c :: _ => isspace c = false | [] => False end ->
  match rev p with c :: _ => isspace c = false | [] => False end ->
  contains p (strip s) = contains p s.
Proof.
  intros Hh Hl. apply eq_true_iff_eq. rewrite !contains_spec.
  destruct (strip_split s) as (sp1 & sp2 & Hs & H1 & H2). split.
  - intros (a & b & H). exists (sp1 ++ a), (b ++ sp2).
    rewrite Hs at 1. rewrite H. now rewrite <- !app_assoc.
  - intros H. rewrite Hs in H.
    eapply occurs_before_space; [exact Hl|exact H2|].
    eapply occurs_after_space; [exact Hh|exact H1|].
    exact H.
Qed.


(** ** Blocks that are opened and never closed *)

Lemma app_eq_le (a b c d : str) :
  a ++ b = c ++ d -> length a <= length c ->
  exists e, c = a ++ e /\ b = e ++ d.
Proof.
  revert c; induction a as [|x a IH]; intros c H L.
  - now exists c.
  - destruct c as [|y c]; [simpl in L; lia|].
    simpl in H. inversion H; subst.
    destruct (IH c H2) as (e & -> & ->); [simpl in L; lia|].
    now exists e.
Qed.

(** [re.search] finds a match of an opening line, a lazy body and a
    fence exactly when some opening line is followed by a fence. *)
Lemma re_search_fenced_None (opening text : str) :
  re_search (fenced_pattern opening) text = None
  <-> ~ exists pre body post, text = pre ++ opening ++ body ++ FENCE ++ post.
Proof.
  split.
  - intros Hn (pre & body & post & Ht).
    destruct (@find_sub_exists opening text pre (body ++ FENCE ++ post) Ht)
      as (pre' & rest' & Fo).
    pose proof (find_sub_first _ _ _ Fo Ht) as L.
    pose proof (find_sub_Some _ _ Fo) as Ht'.
    assert (Ht2 : (pre' ++ opening) ++ rest'
                  = (pre ++ opening) ++ (body ++ FENCE ++ post)).
    { rewrite <- !app_assoc. congruence. }
    apply app_eq_le in Ht2 as (e & _ & Hr);
      [|rewrite !length_app; lia].
    destruct (@find_sub_exists FENCE rest' (e ++ body) post)
      as (b & q & Ff); [now rewrite Hr, <- app_assoc|].
    destruct (re_search_fenced_first _ _ Fo Ff) as (m & Hm & _).
    congruence.
  - intros H. destruct (re_search (fenced_pattern opening) text) as [m|] eqn:E;
      [|reflexivity].
    exfalso. apply H.
    apply re_search_fenced_Some in E as (pre & body & post & Ht & _).
    eauto.
Qed.

Lemma extract_block_unfold (k : text_kind) (text : str) :
  extract_block k text
  = match re_search (fenced_pattern (opening_of k)) text with
    | Some m => strip (group_or_empty m 1)
    | None => []
    end.
Proof. now destruct k. Qed.

(** [extract_markdown_block] and [extract_text_block] by position: the
    leftmost opening line and the body up to the next fence, trimmed; and
    the empty string when there is no opening line or no fence after the
    first one. *)
Theorem extract_block_by_position (k : text_kind) (text : str) :
  extract_block k text
  = match find_sub (opening_of k) text with
    | None => []
    | Some (_, rest) =>
        match find_sub FENCE rest with
        | None => []
        | Some (body, _) => strip body
        end
    end.
Proof.
  destruct (find_sub (opening_of k) text) as [[pre rest]|] eqn:Fo.
  - destruct (find_sub FENCE rest) as [[body post]|] eqn:Ff.
    + exact (first_block_by_position k _ Fo Ff).
    + rewrite extract_block_unfold.
      destruct (re_search (fenced_pattern (opening_of k)) text) as [m|] eqn:E;
        [exfalso|reflexivity].
      apply re_search_fenced_Some in E as (p & b & q & Ht & _).
      pose proof (find_sub_first _ _ _ Fo Ht) as L.
      pose proof (find_sub_Some _ _ Fo) as Ht'.
      assert (Ht2 : (pre ++ opening_of k) ++ rest
                    = (p ++ opening_of k) ++ (b ++ FENCE ++ q)).
      { rewrite <- !app_assoc. congruence. }
      apply app_eq_le in Ht2 as (e & _ & Hr); [|rewrite !length_app; lia].
      apply (find_sub_None _ Ff (e ++ b) q). now rewrite Hr, <- app_assoc.
  - rewrite extract_block_unfold.
    destruct (re_search (fenced_pattern (opening_of k)) text) as [m|] eqn:E;
      [exfalso|reflexivity].
    apply re_search_fenced_Some in E as (p & b & q & Ht & _).
    exact (find_sub_None _ Fo p _ Ht).
Qed.

(** What the two extractors return is trimmed and holds no fence. *)
Theorem extract_block_trimmed_fence_free (k : text_kind) (text : str) :
  strip (extract_block k text) = extract_block k text
  /\ contains FENCE (extract_block k text) = false.
Proof.
  rewrite extract_block_unfold.
  destruct (re_search (fenced_pattern (opening_of k)) text) as [m|] eqn:E;
    [|split; reflexivity].
  apply re_search_fenced_Some in E as (pre & body & post & _ & Ff & ->).
  split; [apply strip_idempotent|].
  destruct (contains FENCE (strip body)) eqn:C; [exfalso|reflexivity].
  apply contains_spec in C as (a & b & C).
  destruct (strip_split body) as (sp1 & sp2 & Hb & _ & _).
  rewrite C in Hb.
  apply (find_sub_fence_free _ Ff (sp1 ++ a) (b ++ sp2)).
  rewrite Hb. now rewrite <- !app_assoc.
Qed.

(** [extract_changes_made_block] returns the pair (False, []) exactly
    when no line "```json" is followed by a fence. *)
Theorem changes_made_not_found_iff (text : str) :
  extract_changes_made_block text = Return (false, JArray [])
  <-> ~ exists pre body post, text = pre ++ JSON_OPEN ++ body ++ FENCE ++ post.
Proof.
  rewrite <- re_search_fenced_None. unfold extract_changes_made_block.
  change (fenced_pattern JSON_OPEN) with JSON_BLOCK_PATTERN.
  destruct (re_search JSON_BLOCK_PATTERN text) as [m|] eqn:E.
  - destruct (re_findall_cons _ _ E) as (others & ->).
    cbn [length Nat.eqb]. split; [|discriminate].
    destruct (json_loads _) as [data| |]; try discriminate.
    destruct (subscript data CHANGES_MADE); discriminate.
  - rewrite (re_findall_nil _ _ E). cbn [length Nat.eqb]. tauto.
Qed.

(** ** The owner and the repository that are returned *)

Lemma drop_while_stop (p : char -> bool) (a rest : str) :
  Forall (fun c => p c = true) a ->
  match rest with x :: _ => p x = false | [] => True end ->
  drop_while p (a ++ rest) = rest.
Proof.
  intros Ha Hr. induction Ha as [|c a Hc Ha IH]; simpl.
  - destruct rest as [|x rest]; [reflexivity|]. simpl. now rewrite Hr.
  - now rewrite Hc.
Qed.

Lemma firstn_cons_split (c : char) (b t : str) :
  firstn (length (c :: b ++ t) - length t) (c :: b ++ t) = c :: b.
Proof. exact (firstn_split_at (c :: b) t). Qed.

(** The pattern after the prefix, on an owner, a slash, a repository name
    and a rest that is empty or starts with a dot. *)
Lemma run_url_tail_exact (A : Type) (K : cont A) (owner repo rest : str)
  (g0 : groups) :
  (forall s g, K s g <> None) ->
  owner <> [] -> ~ In SLASH owner -> repo <> [] -> ~ In DOT repo ->
  match rest with x :: _ => x = DOT | [] => True end ->
  run URL_TAIL (owner ++ [SLASH] ++ repo ++ rest) g0 K
  = orelse
      match strip_prefix $".git" rest with
      | Some w => K w ((3, $".git") :: (2, repo) :: (1, owner) :: g0)
      | None => None
      end
      (K rest ((2, repo) :: (1, owner) :: g0)).
Proof.
  intros HK Ho Hs Hr Hd Hrest.
  destruct owner as [|c o]; [congruence|].
  destruct repo as [|d r]; [congruence|].
  apply all_noneof_not_In in Hs. apply all_noneof_not_In in Hd.
  inversion Hs as [|? ? Hc Hos]; subst. inversion Hd as [|? ? Hdd Hrs]; subst.
  unfold URL_TAIL, Plus.
  rewrite run_Cat, run_Group, run_Cat, run_Class.
  cbn [app]. change (noneof 47%N) with (noneof SLASH). rewrite Hc.
  rewrite run_Star, (iter_greedy_class (noneof SLASH)) by lia.
  rewrite greedy_class_inside.
  2:{ intros c' t' Hc'. rewrite run_Cat, run_Lit.
      change $"/" with [SLASH]. cbn [strip_prefix].
      unfold noneof in Hc'. rewrite N.eqb_sym.
      now destruct (c' =? SLASH)%N. }
  rewrite drop_while_stop by (assumption || reflexivity).
  rewrite run_Cat, run_Lit. change $"/" with [SLASH].
  cbn [strip_prefix]. rewrite N.eqb_refl.
  rewrite run_Cat, run_Group, run_Cat, run_Class.
  change (noneof 46%N) with (noneof DOT). rewrite Hdd.
  rewrite run_Star, (iter_greedy_class (noneof DOT)) by lia.
  rewrite greedy_class_total.
  2:{ intros w. unfold Opt. rewrite run_Alt, run_Group, run_Lit, run_Eps.
      destruct (strip_prefix $".git" w) as [w'|].
      - now destruct (K w' _) eqn:E; [|apply HK in E].
      - cbn [orelse]. apply HK. }
  rewrite drop_while_stop.
  2:{ assumption. }
  2:{ destruct rest as [|x rest]; [exact I|]. now subst x. }
  unfold Opt. rewrite run_Alt, run_Group, run_Lit, run_Eps.
  replace (firstn (length (c :: o ++ SLASH :: d :: r ++ rest)
                   - length (SLASH :: d :: r ++ rest))
             (c :: o ++ SLASH :: d :: r ++ rest)) with (c :: o)
    by (symmetry; apply (firstn_cons_split c o (SLASH :: d :: r ++ rest))).
  replace (firstn (length (d :: r ++ rest) - length rest) (d :: r ++ rest))
    with (d :: r) by (symmetry; apply (firstn_cons_split d r rest)).
  destruct (strip_prefix $".git" rest) as [w|] eqn:E; [|reflexivity].
  apply strip_prefix_Some in E. subst rest.
  now rewrite (firstn_split_at $".git" w).
Qed.

(** A remote URL of a GitHub form: the owner is what precedes the first
    slash after the prefix, and the repository is what follows it up to
    the first dot, so that a final ".git" is dropped and a dotted name is
    cut short; nothing is reported. *)
Lemma github_url_parsed (prefix owner repo rest : str) :
  prefix = HTTPS_PREFIX \/ prefix = SSH_PREFIX ->
  owner <> [] -> ~ In SLASH owner -> repo <> [] -> ~ In DOT repo ->
  match rest with x :: _ => x = DOT | [] => True end ->
  get_owner_and_repo_from_git_config
    (OriginUrl (prefix ++ owner ++ [SLASH] ++ repo ++ rest))
  = ((Some owner, Some repo), []).
Proof.
  intros Hp Ho Hs Hr Hd Hrest.
  cbn [get_owner_and_repo_from_git_config]. unfold re_match, match_at.
  unfold GITHUB_URL_PATTERN.
  change (Cat (Group 1 (Plus true (Class (noneof 47%N))))
           (Cat (Lit $"/")
             (Cat (Group 2 (Plus true (Class (noneof 46%N))))
                  (Opt (Group 3 (Lit $".git")))))) with URL_TAIL.
  rewrite run_Cat, run_Alt, !run_Lit.
  change $"https://github.com/" with HTTPS_PREFIX.
  change $"git@github.com:" with SSH_PREFIX.
  assert (T : run URL_TAIL (owner ++ [SLASH] ++ repo ++ rest) []
                (fun s' g =>
                   if false && Nat.eqb (length s')
                        (length (prefix ++ owner ++ [SLASH] ++ repo ++ rest))
                   then None else Some (g, s'))
              = match strip_prefix $".git" rest with
                | Some w => Some ([(3, $".git"); (2, repo); (1, owner)], w)
                | None => Some ([(2, repo); (1, owner)], rest)
                end).
  { rewrite run_url_tail_exact by (assumption || discriminate).
    now destruct (strip_prefix $".git" rest). }
  assert (G : forall x : option (groups * str),
    x = match strip_prefix $".git" rest with
        | Some w => Some ([(3, $".git"); (2, repo); (1, owner)], w)
        | None => Some ([(2, repo); (1, owner)], rest)
        end ->
    match x with
    | Some (g, rest0) =>
        match
          Some {| m_start := 0;
                  m_end := length (prefix ++ owner ++ [SLASH] ++ repo ++ rest)
                           - length rest0;
                  m_groups := g |}
        with
        | Some m => ((group (m_groups m) 1, group (m_groups m) 2), [])
        | None =>
            ((None, None), [$"Could not parse GitHub owner/repo from URL."])
        end
    | None => ((None, None), [$"Could not parse GitHub owner/repo from URL."])
    end = ((Some owner, Some repo), @nil str)).
  { intros x ->. now destruct (strip_prefix $".git" rest). }
  destruct Hp as [-> | ->].
  - rewrite strip_prefix_app, T.
    rewrite <- (G _ eq_refl) at 1.
    destruct (strip_prefix $".git" rest); reflexivity.
  - change (strip_prefix HTTPS_PREFIX
              (SSH_PREFIX ++ owner ++ [SLASH] ++ repo ++ rest))
      with (@None str).
    rewrite strip_prefix_app, T.
    rewrite <- (G _ eq_refl) at 1.
    destruct (strip_prefix $".git" rest); reflexivity.
Qed.

Lemma drop_while_head (p : char -> bool) (s : str) :
  match drop_while p s with x :: _ => p x = false | [] => True end.
Proof.
  induction s as [|c s IH]; simpl; [exact I|].
  destruct (p c) eqn:E; [exact IH|exact E].
Qed.

(** The owner and the repository that are returned for a remote URL, in
    full: the URL has one of the two prefixes; the owner is what follows
    it up to the first slash; the repository is what follows that slash up
    to the first dot or the end of the URL.  So a final ".git" is dropped,
    and a name that holds a dot is cut short at it. *)
Theorem owner_and_repo_of_url (url owner repo : str) :
  fst (get_owner_and_repo_from_git_config (OriginUrl url))
  = (Some owner, Some repo)
  <-> exists prefix rest,
        (prefix = HTTPS_PREFIX \/ prefix = SSH_PREFIX)
        /\ url = prefix ++ owner ++ [SLASH] ++ repo ++ rest
        /\ owner <> [] /\ ~ In SLASH owner
        /\ repo <> [] /\ ~ In DOT repo
        /\ match rest with x :: _ => x = DOT | [] => True end.
Proof.
  split.
  - intros H. destruct (github_formb url) eqn:B.
    + apply github_formb_spec in B
        as (prefix & owner0 & repo0 & rest0 & Hp & Hu & Ho & Hs & Hr & Hd).
      set (more := take_while (noneof DOT) rest0).
      set (rest := drop_while (noneof DOT) rest0).
      assert (Hd1 : ~ In DOT (repo0 ++ more)).
      { intros Hin. apply in_app_or in Hin as [Hin|Hin]; [now apply Hd|].
        revert Hin. apply all_noneof_not_In. apply take_while_all. }
      assert (Hr1 : repo0 ++ more <> []) by (now destruct repo0).
      assert (Hrest : match rest with x :: _ => x = DOT | [] => True end).
      { pose proof (drop_while_head (noneof DOT) rest0) as Hh.
        fold rest in Hh. destruct rest as [|x rest']; [exact I|].
        destruct (N.eq_dec x DOT) as [|Hne]; [assumption|].
        apply noneof_true in Hne. congruence. }
      assert (Hu1 : url = prefix ++ owner0 ++ [SLASH] ++ (repo0 ++ more) ++ rest).
      { rewrite Hu. rewrite (take_drop_while (noneof DOT) rest0) at 1.
        fold more rest. now rewrite <- !app_assoc. }
      rewrite Hu1 in H.
      rewrite (@github_url_parsed _ _ _ _ Hp Ho Hs Hr1 Hd1 Hrest) in H.
      cbn [fst] in H. inversion H; subst owner repo.
      exists prefix, rest. auto 10.
    + exfalso. assert (N : ~ github_form url).
      { intros F. apply github_formb_spec in F. congruence. }
      apply re_match_github_url in N.
      cbn [get_owner_and_repo_from_git_config] in H. rewrite N in H.
      discriminate H.
  - intros (prefix & rest & Hp & -> & Ho & Hs & Hr & Hd & Hrest).
    now rewrite (@github_url_parsed _ _ _ _ Hp Ho Hs Hr Hd Hrest).
Qed.

(** ** The retry loop of [llmlinter.py], for any gateway *)

Section RetryLoop.
Variable llm : gateway.
Variables prompt model : str.

Lemma send_prompt_Content (w : world) (r : str) :
  llm (calls w) prompt model = Content r ->
  send_prompt_to_LLM llm prompt model w
  = (Return r, {| calls := S (calls w); output := output w |}).
Proof. unfold send_prompt_to_LLM. now intros ->. Qed.

Lemma send_prompt_Failure (w : world) :
  llm (calls w) prompt model = Failure ->
  send_prompt_to_LLM llm prompt model w
  = (Raise GatewayError, {| calls := S (calls w); output := output w |}).
Proof. unfold send_prompt_to_LLM. now intros ->. Qed.

(** When the loop returns, what it returns is the last answer received;
    the answers before it were blank, and it is blank itself only when it
    is the last one allowed.  Nothing is shown meanwhile. *)
Lemma attempt_loop_returns (n : nat) : forall init w res w',
  Llmlinter.attempt_loop llm prompt model n init w = (Return res, w') ->
  output w' = output w
  /\ ((n = 0 /\ res = init /\ calls w' = calls w)
      \/ exists r,
           res = Some r
           /\ calls w < calls w' <= calls w + n
           /\ llm (calls w' - 1) prompt model = Content r
           /\ (blank r = false \/ calls w' = calls w + n)
           /\ forall i, calls w <= i < calls w' - 1 ->
                exists b, llm i prompt model = Content b /\ blank b = true).
Proof.
  induction n as [|n IH]; intros init w res w' H.
  - inversion H; subst. split; [reflexivity|]. left. auto.
  - cbn [Llmlinter.attempt_loop] in H. unfold seq in H.
    destruct (llm (calls w) prompt model) as [r|] eqn:E;
      [rewrite (send_prompt_Content w E) in H
      |rewrite (send_prompt_Failure w E) in H; discriminate].
    assert (Hw : S (calls w) - 1 = calls w) by lia.
    destruct (strip r) as [|c t] eqn:Hs.
    + apply IH in H as (Ho & Hc). cbn [output calls] in *.
      split; [assumption|]. right.
      destruct Hc as [(-> & -> & Hc)|(r' & -> & Hr & Hl & Hb & Hi)].
      * exists r. rewrite Hc, Hw.
        split; [reflexivity|]. split; [lia|]. split; [assumption|].
        split; [right; lia|]. intros i Hi. lia.
      * exists r'.
        split; [reflexivity|]. split; [lia|]. split; [assumption|].
        split; [destruct Hb; [now left|right; lia]|].
        intros i Hi'. destruct (Nat.eq_dec i (calls w)) as [->|Hne].
        -- exists r. split; [assumption|]. unfold blank. now rewrite Hs.
        -- apply Hi. lia.
    + inversion H; subst. cbn [output calls]. rewrite Hw.
      split; [reflexivity|]. right. exists r.
      split; [reflexivity|]. split; [lia|]. split; [assumption|].
      split; [left; unfold blank; now rewrite Hs|]. intros i Hi. lia.
Qed.

(** When the loop raises, the gateway has failed on the last call made,
    after blank answers only: a failure is not tried again. *)
Lemma attempt_loop_raises (n : nat) : forall init w e w',
  Llmlinter.attempt_loop llm prompt model n init w = (Raise e, w') ->
  e = GatewayError /\ output w' = output w
  /\ calls w < calls w' <= calls w + n
  /\ llm (calls w' - 1) prompt model = Failure
  /\ forall i, calls w <= i < calls w' - 1 ->
       exists b, llm i prompt model = Content b /\ blank b = true.
Proof.
  induction n as [|n IH]; intros init w e w' H; [discriminate|].
  cbn [Llmlinter.attempt_loop] in H. unfold seq in H.
  assert (Hw : S (calls w) - 1 = calls w) by lia.
  destruct (llm (calls w) prompt model) as [r|] eqn:E;
    [rewrite (send_prompt_Content w E) in H
    |rewrite (send_prompt_Failure w E) in H].
  - destruct (strip r) as [|c t] eqn:Hs; [|discriminate].
    apply IH in H as (-> & Ho & Hc & Hl & Hi). cbn [output calls] in *.
    split; [reflexivity|]. split; [assumption|]. split; [lia|].
    split; [assumption|].
    intros i Hi'. destruct (Nat.eq_dec i (calls w)) as [->|Hne].
    + exists r. split; [assumption|]. unfold blank. now rewrite Hs.
    + apply Hi. lia.
  - inversion H; subst. cbn [output calls]. rewrite Hw.
    split; [reflexivity|]. split; [reflexivity|]. split; [lia|].
    split; [assumption|]. intros i Hi. lia.
Qed.


End RetryLoop.

(** ** The free-form command as a whole *)

(** Once the loop has settled on an answer, the command shows the verdict
    of that answer, appends it to the log when a path was given, and shows
    the warning; the model returns the answer, the value of [results]. *)
Lemma lint_head_commit_message_after_loop (llm : gateway)
  (prompt model : str) (repo output_path : option str) (w w1 : world)
  (r : str) :
  Llmlinter.attempt_loop llm prompt model no_of_attempts None w
    = (Return (Some r), w1) ->
  Llmlinter.lint_head_commit_message llm prompt model repo output_path w
  = (Return r, {| calls := calls w1;
                  output := output w1
                            ++ shown_after_loop r repo output_path |}).
Proof.
  intros H. unfold Llmlinter.lint_head_commit_message, seq. rewrite H.
  unfold show, read_local, ret, shown_after_loop.
  destruct output_path as [path|]; cbn [calls output];
    now rewrite <- !app_assoc.
Qed.

Lemma lint_head_commit_message_returns (llm : gateway)
  (prompt model : str) (repo output_path : option str) (w w' : world)
  (r : str) :
  Llmlinter.lint_head_commit_message llm prompt model repo output_path w
    = (Return r, w') ->
  exists w1,
    Llmlinter.attempt_loop llm prompt model no_of_attempts None w
      = (Return (Some r), w1)
    /\ w' = {| calls := calls w1;
               output := output w1 ++ shown_after_loop r repo output_path |}.
Proof.
  intros H.
  destruct (Llmlinter.attempt_loop llm prompt model no_of_attempts None w)
    as [[res| |] w1] eqn:E.
  - destruct res as [r'|].
    + erewrite lint_head_commit_message_after_loop in H by exact E.
      inversion H; subst. now exists w1.
    + apply attempt_loop_returns in E as (_ & [(E & _)|(r' & E & _)]);
        discriminate.
  - unfold Llmlinter.lint_head_commit_message, seq in H. rewrite E in H.
    discriminate.
  - unfold Llmlinter.lint_head_commit_message, seq in H. rewrite E in H.
    discriminate.
Qed.

Lemma shown_verdicts_app (a b : list shown) :
  shown_verdicts (a ++ b) = shown_verdicts a ++ shown_verdicts b.
Proof. apply flat_map_app. Qed.

Lemma appended_in_app (a b : list shown) :
  appended_in (a ++ b) = appended_in a ++ appended_in b.
Proof. apply flat_map_app. Qed.

Lemma shown_verdicts_lines (l : list str) : shown_verdicts (map Line l) = [].
Proof. induction l; [reflexivity|assumption]. Qed.

Lemma appended_in_lines (l : list str) : appended_in (map Line l) = [].
Proof. induction l; [reflexivity|assumption]. Qed.

(** What follows the loop shows one verdict, that of the answer as it
    was received, and appends the trimmed answer and an empty line when a
    path was given. *)
Lemma shown_after_loop_summary (r : str) (repo output_path : option str) :
  shown_verdicts (shown_after_loop r repo output_path)
    = [if contains LINT_FAIL r then Fail else Pass]
  /\ appended_in (shown_after_loop r repo output_path)
     = match output_path with
       | Some path => [(path, strip r ++ NL ++ NL)]
       | None => []
       end.
Proof.
  unfold shown_after_loop, print_linter_output.
  rewrite <- (contains_strip LINT_FAIL r) by reflexivity.
  destruct (contains LINT_FAIL (strip r)), output_path; split; reflexivity.
Qed.

(** Whenever the free-form command comes to its end: it has asked the
    gateway one to three times; [results], which the model returns, is the
    last answer, and it is blank only if it is the third; exactly one
    verdict was shown, fail if the token LINT_FAIL occurs in that answer
    and pass if not; and exactly the trimmed answer and an empty line were
    appended to the log, if a log was asked for. *)
Theorem lint_command_returns (cfg : git_config) (head_commit rules : str)
  (llm : gateway) (model : str) (output_path : option str) (w w' : world)
  (r : str) :
  lint_command cfg head_commit rules llm model output_path w
    = (Return r, w') ->
  calls w < calls w' <= calls w + 3
  /\ llm (calls w' - 1) (build_prompt head_commit rules) model = Content r
  /\ (blank r = false \/ calls w' = calls w + 3)
  /\ exists new,
       output w' = output w ++ new
       /\ shown_verdicts new = [if contains LINT_FAIL r then Fail else Pass]
       /\ appended_in new
          = match output_path with
            | Some path => [(path, strip r ++ NL ++ NL)]
            | None => []
            end.
Proof.
  unfold lint_command.
  destruct (get_owner_and_repo_from_git_config cfg) as [[owner repo] reported].
  cbn [snd]. unfold seq at 1 2 3 4. unfold show at 1 2 3 4.
  cbn [calls output]. intros H.
  apply lint_head_commit_message_returns in H as (w1 & H & ->).
  apply attempt_loop_returns in H
    as (Ho & [(H0 & _)|(r' & Hr & Hc & Hl & Hb & _)]); [discriminate|].
  inversion Hr; subst r'. cbn [calls output] in *.
  unfold no_of_attempts in *.
  split; [lia|]. split; [assumption|]. split; [assumption|].
  destruct (shown_after_loop_summary r repo output_path) as (Sv & Sa).
  exists (map Line reported
          ++ [Line []; Boxed (head_commit_panel head_commit repo); Line []]
          ++ shown_after_loop r repo output_path).
  split; [rewrite Ho; now rewrite <- !app_assoc|].
  rewrite !shown_verdicts_app, !appended_in_app.
  rewrite shown_verdicts_lines, appended_in_lines, Sv, Sa.
  split; reflexivity.
Qed.




(** The loop of [llmlinter.py] with its three attempts: when it returns,
    it returns the last answer received after one to three calls; every
    answer before it was blank, and it is blank itself only if it is the
    third. *)
Theorem llmlinter_loop_result (llm : gateway) (prompt model : str)
  (w w' : world) (res : option str) :
  Llmlinter.attempt_loop llm prompt model no_of_attempts None w
    = (Return res, w') ->
  exists r,
    res = Some r
    /\ calls w < calls w' <= calls w + 3
    /\ llm (calls w' - 1) prompt model = Content r
    /\ (blank r = false \/ calls w' = calls w + 3)
    /\ (forall i, calls w <= i < calls w' - 1 ->
          exists b, llm i prompt model = Content b /\ blank b = true)
    /\ output w' = output w.
Proof.
  intros H. apply attempt_loop_returns in H as (Ho & [(H0 & _)|H]).
  - discriminate H0.
  - destruct H as (r & Hr & Hc & Hl & Hb & Hi). exists r.
    unfold no_of_attempts in *. auto 10.
Qed.

Lemma llmlinter_loop_result_witness :
  exists r,
    Some $"ok" = Some r
    /\ 0 < 2 <= 0 + 3
    /\ scripted [ $"  "; $"ok"; $"late" ] (2 - 1) $"p" $"m" = Content r
    /\ (blank r = false \/ 2 = 0 + 3)
    /\ (forall i, 0 <= i < 2 - 1 ->
          exists b, scripted [ $"  "; $"ok"; $"late" ] i $"p" $"m" = Content b
                    /\ blank b = true)
    /\ @nil shown = [].
Proof.
  exact (@llmlinter_loop_result (scripted [ $"  "; $"ok"; $"late" ])
           $"p" $"m" fresh {| calls := 2; output := [] |} (Some $"ok")
           eq_refl).
Defined.

(** A failure of the gateway is not tried again: when the loop raises,
    the last call made has failed, after blank answers only, and nothing
    was shown. *)
Theorem llmlinter_loop_failure (llm : gateway) (prompt model : str)
  (w w' : world) (e : exn) :
  Llmlinter.attempt_loop llm prompt model no_of_attempts None w
    = (Raise e, w') ->
  e = GatewayError
  /\ calls w < calls w' <= calls w + 3
  /\ llm (calls w' - 1) prompt model = Failure
  /\ (forall i, calls w <= i < calls w' - 1 ->
        exists b, llm i prompt model = Content b /\ blank b = true)
  /\ output w' = output w.
Proof.
  intros H. apply attempt_loop_raises in H as (He & Ho & Hc & Hl & Hi).
  unfold no_of_attempts in *. auto 10.
Qed.

Lemma llmlinter_loop_failure_witness :
  GatewayError = GatewayError
  /\ 0 < 2 <= 0 + 3
  /\ scripted [ $"  " ] (2 - 1) $"p" $"m" = Failure
  /\ (forall i, 0 <= i < 2 - 1 ->
        exists b, scripted [ $"  " ] i $"p" $"m" = Content b
                  /\ blank b = true)
  /\ @nil shown = [].
Proof.
  exact (@llmlinter_loop_failure (scripted [ $"  " ]) $"p" $"m" fresh
           {| calls := 2; output := [] |} GatewayError eq_refl).
Defined.


(** ** The prompt and the verdict *)





(** ** The loop of [lint_commit.py], for any gateway *)


(** ** All the blocks of a response *)

Lemma re_search_fenced_by_position (opening text : str) :
  re_search (fenced_pattern opening) text
  = match find_sub opening text with
    | None => None
    | Some (pre, rest) =>
        match find_sub FENCE rest with
        | None => None
        | Some (body, post) =>
            Some {| m_start := length pre;
                    m_end := length text - length post;
                    m_groups := [(1, body)] |}
        end
    end.
Proof.
  destruct (find_sub opening text) as [[pre rest]|] eqn:Fo.
  - destruct (find_sub FENCE rest) as [[body post]|] eqn:Ff.
    + pose proof (find_sub_Some _ _ Fo) as Ht.
      pose proof (find_sub_Some _ _ Ff) as Hr.
      unfold re_search. rewrite Ht at 1. rewrite search_from_skip.
      * erewrite search_from_hit.
        2:{ rewrite match_at_fenced, strip_prefix_app, Ff. reflexivity. }
        f_equal. f_equal. rewrite Ht, Hr. rewrite !length_app. lia.
      * intros a c b Hpre. rewrite match_at_fenced.
        destruct (strip_prefix opening (c :: b ++ opening ++ rest))
          as [s1|] eqn:P; [|reflexivity].
        exfalso. apply strip_prefix_Some in P.
        assert (Ht' : text = a ++ opening ++ s1).
        { rewrite Ht, Hpre, <- app_assoc. simpl. now rewrite P. }
        pose proof (find_sub_first _ _ _ Fo Ht') as L.
        rewrite Hpre, length_app in L. simpl in L. lia.
    + destruct (re_search (fenced_pattern opening) text) as [m|] eqn:E;
        [exfalso|reflexivity].
      apply re_search_fenced_Some in E as (p & b & q & Ht & _).
      pose proof (find_sub_first _ _ _ Fo Ht) as L.
      pose proof (find_sub_Some _ _ Fo) as Ht'.
      assert (Ht2 : (pre ++ opening) ++ rest
                    = (p ++ opening) ++ (b ++ FENCE ++ q)).
      { rewrite <- !app_assoc. congruence. }
      apply app_eq_le in Ht2 as (e & _ & Hr); [|rewrite !length_app; lia].
      apply (find_sub_None _ Ff (e ++ b) q). now rewrite Hr, <- app_assoc.
  - destruct (re_search (fenced_pattern opening) text) as [m|] eqn:E;
      [exfalso|reflexivity].
    apply re_search_fenced_Some in E as (p & b & q & Ht & _).
    exact (find_sub_None _ Fo p _ Ht).
Qed.

Lemma skipn_length_suffix (a b : str) :
  skipn (length (a ++ b) - length b) (a ++ b) = b.
Proof.
  rewrite length_app, Nat.add_sub. rewrite skipn_app, Nat.sub_diag.
  rewrite skipn_all. reflexivity.
Qed.

(** [re.findall] goes on behind the fence that closed the block before. *)
Lemma re_findall_fenced_step (opening text : str) :
  re_findall (fenced_pattern opening) text
  = match find_sub opening text with
    | None => []
    | Some (_, rest) =>
        match find_sub FENCE rest with
        | None => []
        | Some (body, post) =>
            body :: re_findall (fenced_pattern opening) post
        end
    end.
Proof.
  rewrite re_findall_unfold, re_search_fenced_by_position.
  destruct (find_sub opening text) as [[pre rest]|] eqn:Fo; [|reflexivity].
  destruct (find_sub FENCE rest) as [[body post]|] eqn:Ff; [|reflexivity].
  pose proof (find_sub_Some _ _ Fo) as Ht.
  pose proof (find_sub_Some _ _ Ff) as Hr.
  cbn [m_start m_end]. unfold group_or_empty. cbn [m_groups group].
  f_equal.
  assert (Hs : text = (pre ++ opening ++ body ++ FENCE) ++ post).
  { rewrite Ht, Hr. now rewrite <- !app_assoc. }
  clear Fo Ff Ht Hr. subst text.
  rewrite skipn_length_suffix.
  replace (Nat.eqb (length ((pre ++ opening ++ body ++ FENCE) ++ post)
                    - length post) (length pre)) with false.
  2:{ symmetry; apply Nat.eqb_neq. rewrite !length_app.
      change (length FENCE) with 3. lia. }
  unfold re_findall. apply findall_loop_enough.
  - rewrite !length_app. change (length FENCE) with 3. lia.
  - lia.
Qed.

(** What [re.findall] collects for an opening line, a lazy body and a
    fence: the bodies of the blocks met from left to right. *)
Lemma re_findall_fenced_bodies (opening : str) : forall (n : nat) (text : str),
  length text <= n ->
  re_findall (fenced_pattern opening) text = fenced_bodies n opening text.
Proof.
  induction n as [|n IH]; intros text L; rewrite re_findall_fenced_step.
  - destruct text; [|simpl in L; lia]. cbn [fenced_bodies].
    destruct (find_sub opening []) as [[pre rest]|] eqn:Fo; [|reflexivity].
    apply find_sub_Some in Fo. destruct pre; [|discriminate].
    destruct opening; [|discriminate]. simpl in Fo. subst rest. reflexivity.
  - cbn [fenced_bodies].
    destruct (find_sub opening text) as [[pre rest]|] eqn:Fo; [|reflexivity].
    destruct (find_sub FENCE rest) as [[body post]|] eqn:Ff; [|reflexivity].
    f_equal. apply IH.
    apply find_sub_Some in Fo, Ff. subst text rest.
    rewrite !length_app in L. change (length FENCE) with 3 in L. lia.
Qed.

Lemma fenced_bodies_fence_free (opening : str) : forall n s b,
  In b (fenced_bodies n opening s) ->
  find_sub FENCE (b ++ FENCE) = Some (b, []).
Proof.
  induction n as [|n IH]; intros s b; cbn [fenced_bodies]; [intros []|].
  destruct (find_sub opening s) as [[pre rest]|]; [|intros []].
  destruct (find_sub FENCE rest) as [[body post]|] eqn:Ff; [|intros []].
  intros [<-|H]; [|exact (IH _ _ H)].
  change (find_sub FENCE (body ++ FENCE ++ []) = Some (body, [])).
  apply find_sub_complete. intros a r H.
  pose proof (find_sub_Some _ _ Ff) as Hr.
  apply (@find_sub_first FENCE rest body post a (r ++ post) Ff).
  rewrite Hr. change (body ++ FENCE ++ post)
    with (body ++ (FENCE ++ []) ++ post).
  rewrite app_assoc, H. now rewrite <- !app_assoc.
Qed.

(** The result of [extract_changes_made_block] is that of the last block
    alone: the blocks before it are passed over, whatever they hold. *)
Theorem changes_made_reads_last_block (text : str) (before : list str)
  (b : str) :
  fenced_bodies (length text) JSON_OPEN text = before ++ [b] ->
  extract_changes_made_block text
  = extract_changes_made_block (JSON_OPEN ++ b ++ FENCE).
Proof.
  intros H.
  assert (Hb : find_sub FENCE (b ++ FENCE) = Some (b, [])).
  { apply (@fenced_bodies_fence_free JSON_OPEN (length text) text).
    rewrite H. apply in_or_app. right. now left. }
  unfold extract_changes_made_block. change JSON_BLOCK_PATTERN
    with (fenced_pattern JSON_OPEN).
  rewrite (@re_findall_fenced_bodies JSON_OPEN (length text) text), H
    by reflexivity.
  rewrite (re_findall_fenced_step JSON_OPEN (JSON_OPEN ++ b ++ FENCE)).
  replace (find_sub JSON_OPEN (JSON_OPEN ++ b ++ FENCE))
    with (Some (@nil char, b ++ FENCE))
    by (unfold find_sub; destruct (JSON_OPEN ++ b ++ FENCE) eqn:E;
        rewrite <- E, strip_prefix_app; reflexivity).
  rewrite Hb. rewrite (re_findall_nil (fenced_pattern JSON_OPEN) []) by reflexivity.
  rewrite last_last, length_app. cbn [length last].
  replace (length before + 1) with (S (length before)) by lia.
  reflexivity.
Qed.

(** ** What [extract_json_block] returns *)

(** What [extract_json_block] returns is an object: the [dict] of its
    signature. *)
Theorem extract_json_block_returns_object (text : str) (v : json) :
  extract_json_block text = Return v -> is_object v.
Proof.
  unfold extract_json_block.
  destruct (re_search JSON_OBJECT_PATTERN text) as [m|] eqn:E;
    [|discriminate].
  apply re_search_json_object_Some in E
    as (pre & sp1 & b & sp2 & post & _ & _ & _ & ->).
  destruct (json_loads (LBRACE :: b ++ [RBRACE])) as [v'| |] eqn:J;
    try discriminate.
  intros H. inversion H; subst.
  exact (@json_loads_object_head [] (b ++ [RBRACE]) v (Forall_nil _) J).
Qed.

Lemma extract_json_block_returns_object_witness :
  is_object (JObject [($"verdict", JInt 1)]).
Proof.
  exact (@extract_json_block_returns_object two_json_blocks
           (JObject [($"verdict", JInt 1)]) eq_refl).
Defined.

Lemma lstrip_spaces (sp t : str) :
  Forall (fun c => isspace c = true) sp -> lstrip (sp ++ t) = lstrip t.
Proof.
  intros H. induction H as [|c sp Hc H IH]; simpl; [reflexivity|].
  now rewrite Hc.
Qed.

Lemma lstrip_before_brace (b r : str) :
  Forall (fun c => c <> BACKTICK) b ->
  strip_prefix FENCE (lstrip (b ++ RBRACE :: r)) = None.
Proof.
  intros H. induction H as [|c b Hc H IH]; cbn [app lstrip].
  - reflexivity.
  - destruct (isspace c); [exact IH|].
    now apply strip_prefix_fence_head.
Qed.

(** In a body without a backtick, the closing brace that is found is the
    one that a fence follows. *)
Lemma find_close_backtick_free (b sp post : str) :
  Forall (fun c => c <> BACKTICK) b ->
  Forall (fun c => isspace c = true) sp ->
  find_close (b ++ RBRACE :: sp ++ FENCE ++ post) = Some (b, post).
Proof.
  intros Hb Hsp. induction Hb as [|c b Hc Hb IH]; cbn [app find_close].
  - rewrite N.eqb_refl, lstrip_spaces by assumption.
    change (lstrip (FENCE ++ post)) with (FENCE ++ post).
    now rewrite strip_prefix_app.
  - rewrite IH. destruct (c =? RBRACE)%N; [|reflexivity].
    now rewrite lstrip_before_brace.
Qed.

(** An object in a JSON-tagged fence, with prose before and after it and
    whitespace around it: when neither the prose before nor the text of
    the object holds a backtick, [extract_json_block] returns what the
    text of the object decodes to. *)
Theorem extract_json_block_in_prose (pre sp1 b sp2 post : str) (v : json) :
  Forall (fun c => c <> BACKTICK) pre ->
  Forall (fun c => isspace c = true) sp1 ->
  Forall (fun c => c <> BACKTICK) b ->
  Forall (fun c => isspace c = true) sp2 ->
  json_loads (LBRACE :: b ++ [RBRACE]) = Decoded v ->
  extract_json_block
    (pre ++ $"```json" ++ sp1 ++ LBRACE :: b ++ RBRACE :: sp2 ++ FENCE ++ post)
  = Return v.
Proof.
  intros Hpre Hsp1 Hb Hsp2 Hv. unfold extract_json_block, re_search.
  rewrite search_from_skip.
  2:{ intros a c t Hp. rewrite match_at_json_object.
      assert (Hc : c <> BACKTICK).
      { rewrite Hp in Hpre. apply Forall_app in Hpre as [_ Hpre].
        now inversion Hpre. }
      change $"```json" with (BACKTICK :: $"``json"). cbn [strip_prefix].
      destruct (N.eqb_spec BACKTICK c); [congruence|reflexivity]. }
  erewrite search_from_hit.
  2:{ rewrite match_at_json_object, strip_prefix_app.
      rewrite lstrip_spaces by assumption.
      change (lstrip (LBRACE :: b ++ RBRACE :: sp2 ++ FENCE ++ post))
        with (LBRACE :: b ++ RBRACE :: sp2 ++ FENCE ++ post).
      cbv iota. rewrite N.eqb_refl, find_close_backtick_free by assumption.
      reflexivity. }
  unfold group_or_empty. cbn [m_groups group Nat.eqb]. now rewrite Hv.
Qed.

Lemma extract_json_block_in_prose_witness :
  extract_json_block prose_then_object
  = Return (JObject [($"verdict", JInt 1)]).
Proof.
  refine (@extract_json_block_in_prose
            ($"Here is the verdict:" ++ NL) $" "
            ([QUOTE] ++ $"verdict" ++ [QUOTE] ++ $": 1") NL $" Thanks."
            (JObject [($"verdict", JInt 1)]) _ _ _ _ _).
  - repeat constructor; discriminate.
  - repeat constructor.
  - repeat constructor; discriminate.
  - repeat constructor.
  - reflexivity.
Defined.

(** ** Instances on sample responses and runs *)

Lemma changes_made_reads_last_block_witness :
  extract_changes_made_block draft_then_changes
  = extract_changes_made_block
      (JSON_OPEN ++ ($"{" ++ [QUOTE] ++ $"changes_made" ++ [QUOTE]
                     ++ $": [1]}" ++ NL) ++ FENCE).
Proof.
  apply (@changes_made_reads_last_block draft_then_changes
           [ $"{not yet" ++ NL ]).
  vm_compute. reflexivity.
Defined.

Lemma lint_command_returns_witness :
  exists w',
    sample_run [ $"  "; $"Verdict: LINT_PASS" ] (Some $"lint.log") fresh
      = (Return $"Verdict: LINT_PASS", w')
    /\ 0 < calls w' <= 0 + 3
    /\ exists new,
         output w' = [] ++ new
         /\ shown_verdicts new = [Pass]
         /\ appended_in new
            = [($"lint.log", $"Verdict: LINT_PASS" ++ NL ++ NL)].
Proof.
  exists (snd (sample_run [ $"  "; $"Verdict: LINT_PASS" ]
                 (Some $"lint.log") fresh)).
  assert (H : lint_command (OriginUrl socket_io_url) $"Fix bug" $"Be brief"
                (scripted [ $"  "; $"Verdict: LINT_PASS" ]) $"llama3"
                (Some $"lint.log") fresh
              = (Return $"Verdict: LINT_PASS",
                 snd (sample_run [ $"  "; $"Verdict: LINT_PASS" ]
                        (Some $"lint.log") fresh)))
    by (vm_compute; reflexivity).
  split; [exact H|].
  destruct (@lint_command_returns _ _ _ _ _ _ _ _ _ H)
    as (Hc & _ & _ & new & Ho & Hv & Ha).
  split; [exact Hc|]. exists new.
  split; [exact Ho|]. split; [exact Hv|exact Ha].
Defined.


